(** * Semantic transcript segmentation: a shallow embedding of
      [Segment/segment_cases_ml.py] and the verification of its contract.

    The Python module is translated function by function.  Python [str]
    values are lists of Unicode code points, Python [int]s are [Z], NumPy
    [float64] values are [spec_float] (IEEE-754 binary64 with NaN), lists
    are [list]s, and a raised exception is the [Err] branch of [result].
    The sentence-embedding model is an external collaborator and enters as
    an [Adapter] record; every call made to it is recorded in an event log
    so that "the adapter is never invoked" is a statement about the log. *)

From Stdlib Require Import String Ascii.
From Stdlib Require Import List ZArith NArith Bool Lia.
From Stdlib Require Import Floats.SpecFloat.
Import ListNotations.

Local Open Scope Z_scope.

(* ================================================================= *)
(** ** Exceptions and results *)

Inductive exn : Type :=
| ValueError        (* raised by NumPy on empty or ragged arrays *)
| IndexError        (* list index out of range *)
| AdapterError      (* any failure of the embedding provider *)
| FuelExhausted.    (* model artefact of the [while] loop; shown unreachable *)

Inductive result (A : Type) : Type :=
| Ok (a : A)
| Err (e : exn).
Arguments Ok {A} a.
Arguments Err {A} e.

Definition rbind {A B} (r : result A) (k : A -> result B) : result B :=
  match r with
  | Ok a => k a
  | Err e => Err e
  end.

Notation "x <- r ;; k" := (rbind r (fun x => k))
  (at level 61, r at next level, right associativity).

(* ================================================================= *)
(** ** Python strings *)

Module Py.

(** A character is a Unicode code point. *)
Definition char := N.
Definition str := list char.

(** [str.isspace] on one code point (CPython's [_PyUnicode_IsWhitespace]);
    the regular-expression class [\s] on [str] patterns is the same set. *)
Definition isspace (c : char) : bool :=
  ((9 <=? c) && (c <=? 13) || (28 <=? c) && (c <=? 32)
   || (c =? 133) || (c =? 160) || (c =? 5760)
   || (8192 <=? c) && (c <=? 8202)
   || (c =? 8232) || (c =? 8233) || (c =? 8239) || (c =? 8287)
   || (c =? 12288))%N.

Definition space : char := 32%N.

(** A literal written with ASCII characters. *)
Definition lit (s : string) : str :=
  map N_of_ascii (list_ascii_of_string s).

(** Truth value of a string in a condition: [if s:]. *)
Definition truthy (s : str) : bool :=
  match s with
  | [] => false
  | _ :: _ => true
  end.

Fixpoint lstrip (s : str) : str :=
  match s with
  | [] => []
  | c :: rest => if isspace c then lstrip rest else s
  end.

Definition rstrip (s : str) : str := rev (lstrip (rev s)).

(** [s.strip()] *)
Definition strip (s : str) : str := rstrip (lstrip s).

(** [s == t] *)
Fixpoint str_eqb (s t : str) : bool :=
  match s, t with
  | [], [] => true
  | c :: s', d :: t' => N.eqb c d && str_eqb s' t'
  | _, _ => false
  end.

(** [s.split()]: the maximal runs of non-whitespace characters.  [cur] is
    the word being read, reversed; it is empty between words. *)
Fixpoint split_from (cur : str) (s : str) : list str :=
  match s with
  | [] => match cur with
          | [] => []
          | _ :: _ => [rev cur]
          end
  | c :: rest =>
      if isspace c then
        match cur with
        | [] => split_from [] rest
        | _ :: _ => rev cur :: split_from [] rest
        end
      else split_from (c :: cur) rest
  end.

Definition split (s : str) : list str := split_from [] s.

(** [sep.join(parts)] *)
Fixpoint join (sep : str) (parts : list str) : str :=
  match parts with
  | [] => []
  | [p] => p
  | p :: rest => p ++ sep ++ join sep rest
  end.

(** [len(l)] as a Python integer. *)
Definition len {A} (l : list A) : Z := Z.of_nat (length l).

(** [l[i]] with Python's negative indices. *)
Definition index {A} (l : list A) (i : Z) : result A :=
  let j := if i <? 0 then i + len l else i in
  if (0 <=? j) && (j <? len l) then
    match nth_error l (Z.to_nat j) with
    | Some a => Ok a
    | None => Err IndexError
    end
  else Err IndexError.

(** [range(lo, hi)] *)
Definition range (lo hi : Z) : list Z :=
  map (fun k => lo + Z.of_nat k) (seq 0 (Z.to_nat (hi - lo))).

(** A slice bound brought into [0, n]: negative bounds count from the end. *)
Definition slice_bound (n x : Z) : Z :=
  Z.min (Z.max (if x <? 0 then x + n else x) 0) n.

(** [l[lo:hi]] *)
Definition slice {A} (l : list A) (lo hi : Z) : list A :=
  let lo' := slice_bound (len l) lo in
  let hi' := slice_bound (len l) hi in
  firstn (Z.to_nat (hi' - lo')) (skipn (Z.to_nat lo') l).

(** [range(lo, hi, step)] for a positive [step]. *)
Definition range_step (lo hi step : Z) : list Z :=
  map (fun k => lo + Z.of_nat k * step)
      (seq 0 (Z.to_nat ((hi - lo + step - 1) / step))).

(** [l[i] = v] and [l.pop(i)] for an index [0 <= i < len(l)]; the callers
    below only use them under that guard. *)
Fixpoint set_item {A} (l : list A) (i : nat) (v : A) : list A :=
  match l, i with
  | [], _ => []
  | _ :: t, O => v :: t
  | h :: t, S j => h :: set_item t j v
  end.

Fixpoint pop {A} (l : list A) (i : nat) : list A :=
  match l, i with
  | [], _ => []
  | _ :: t, O => t
  | h :: t, S j => h :: pop t j
  end.

(** Sentence-terminal punctuation: the class [[.!?]]. *)
Definition is_terminal (c : char) : bool :=
  ((c =? 46) || (c =? 33) || (c =? 63))%N.

(** [re.split(r'(?<=[.!?])\s+', s)].  The pattern matches a maximal run of
    whitespace that is preceded by a terminal character; the pieces
    between the matches are returned, the last one also when it is empty.
    [skipping] is set while a match is being consumed, [prev_term] tells
    whether the previous character was terminal, [cur] is the piece being
    read, reversed. *)
Fixpoint re_split_from (skipping prev_term : bool) (cur : str) (s : str)
  : list str :=
  match s with
  | [] => [rev cur]
  | c :: rest =>
      if isspace c then
        if skipping then re_split_from true false [] rest
        else if prev_term then rev cur :: re_split_from true false [] rest
        else re_split_from false (is_terminal c) (c :: cur) rest
      else re_split_from false (is_terminal c) (c :: cur) rest
  end.

Definition re_split_sentence_end (s : str) : list str :=
  re_split_from false false [] s.

End Py.

Import Py.

(* ================================================================= *)
(** ** Tokenizer and Utterance Coalescer *)

(** [split_into_sentences(text)] *)
Definition split_into_sentences (text : str) : list str :=
  let sents := re_split_sentence_end (strip text) in
  map strip (filter (fun s => truthy (strip s)) sents).

(** Number of words of a unit: [len(s.split())]. *)
Definition word_count (s : str) : Z := len (split s).

(** One iteration of the [for s in sentences] loop of
    [merge_short_sentences]; the state is [(merged, buffer)]. *)
Definition merge_body (min_words : Z) (st : list str * str) (s : str)
  : list str * str :=
  let '(merged, buffer) := st in
  if word_count s <? min_words then
    (merged, strip (buffer ++ [space] ++ s))
  else if truthy buffer then
    ((merged ++ [strip buffer]) ++ [s], [])
  else
    (merged ++ [s], buffer).

(** [merge_short_sentences(sentences, min_words)] *)
Definition merge_short_sentences (sentences : list str) (min_words : Z)
  : list str :=
  let '(merged, buffer) := fold_left (merge_body min_words) sentences ([], []) in
  if truthy buffer then merged ++ [strip buffer] else merged.

(* ================================================================= *)
(** ** NumPy: the array operations the module calls

    A one-dimensional [float64] array is a list of binary64 values, a
    two-dimensional one a list of rows.  Shapes and raised errors follow
    NumPy's documentation; sums are accumulated from left to right, and
    the rows returned by the embedding provider are read as binary64
    values.  No statement below depends on the rounding of a sum. *)

Module Np.

Definition float := spec_float.
Definition prec : Z := 53.
Definition emax : Z := 1024.

Definition fadd : float -> float -> float := SFadd prec emax.
Definition fmul : float -> float -> float := SFmul prec emax.
Definition fdiv : float -> float -> float := SFdiv prec emax.
Definition fsqrt : float -> float := SFsqrt prec emax.
Definition of_int (z : Z) : float := binary_normalize prec emax z 0 false.
Definition zero : float := S754_zero false.
Definition one : float := of_int 1.

(** [x < y], [x <= y] and [x == y] on floats; all false on NaN. *)
Definition flt : float -> float -> bool := SFltb.
Definition fle : float -> float -> bool := SFleb.
Definition feq : float -> float -> bool := SFeqb.

Definition array := list float.
Definition matrix := list array.

(** [np.dot(a, b)] on two vectors. *)
Definition dot (a b : array) : float :=
  fold_left (fun acc p => fadd acc (fmul (fst p) (snd p))) (combine a b) zero.

(** [np.linalg.norm(a)] *)
Definition norm (a : array) : float := fsqrt (dot a a).

(** [np.pad(a, (pad, pad), mode='edge')]: an empty axis cannot be extended
    in this mode, and a negative width is refused. *)
Definition pad_edge (a : array) (pad : Z) : result array :=
  match a with
  | [] => if pad =? 0 then Ok [] else Err ValueError
  | x :: _ =>
      if pad <? 0 then Err ValueError
      else Ok (repeat x (Z.to_nat pad) ++ a ++ repeat (last a x) (Z.to_nat pad))
  end.

(** [np.ones(window) / window] *)
Definition box_kernel (window : Z) : array :=
  repeat (fdiv one (of_int window)) (Z.to_nat window).

(** The [m]-wide windows of [a], one per start position. *)
Definition windows (m : nat) (a : array) : list array :=
  map (fun k => firstn m (skipn k a)) (seq 0 (length a - m + 1)).

(** [np.convolve(a, v, mode='valid')]: the arguments are swapped when [v]
    is the longer one; the result has [max(M, N) - min(M, N) + 1] entries;
    an empty argument is refused. *)
Definition convolve_valid (a v : array) : result array :=
  match a, v with
  | [], _ => Err ValueError
  | _, [] => Err ValueError
  | _ :: _, _ :: _ =>
      let '(long, short) :=
        if Nat.ltb (length a) (length v) then (v, a) else (a, v) in
      Ok (map (fun w => dot w (rev short)) (windows (length short) long))
  end.

(** [np.where(a < t)[0]]: the indices of the entries below [t], counted
    from [i]. *)
Fixpoint where_lt_from (i : Z) (a : array) (t : float) : list Z :=
  match a with
  | [] => []
  | x :: rest =>
      if flt x t then i :: where_lt_from (i + 1) rest t
      else where_lt_from (i + 1) rest t
  end.

Definition where_lt (a : array) (t : float) : list Z := where_lt_from 0 a t.

(** [np.vstack(blocks)]: at least one block, and rows of one width. *)
Definition vstack (blocks : list matrix) : result matrix :=
  match blocks with
  | [] => Err ValueError
  | _ :: _ =>
      let rows := concat blocks in
      match rows with
      | [] => Ok []
      | r :: _ =>
          if forallb (fun r' => Nat.eqb (length r') (length r)) rows
          then Ok rows else Err ValueError
      end
  end.

End Np.

Import Np.

(* ================================================================= *)
(** ** Similarity Profiler, Smoother, Boundary Extractor *)

(** The body of the loop of [cosine_similarities] for one pair of rows. *)
Definition cosine (a b : array) : float :=
  let denom := fmul (norm a) (norm b) in
  if feq denom zero then zero else fdiv (dot a b) denom.

(** [cosine_similarities(embeddings)] *)
Fixpoint cosine_similarities (embeddings : matrix) : array :=
  match embeddings with
  | a :: (b :: _) as rest => cosine a b :: cosine_similarities rest
  | _ => []
  end.

(** [smooth(array, window)] *)
Definition smooth (array : array) (window : Z) : result Np.array :=
  if window <=? 1 then Ok array
  else
    let pad := window / 2 in
    padded <- pad_edge array pad ;;
    convolve_valid padded (box_kernel window).

(** One iteration of the filtering loop of [find_boundaries]. *)
Definition boundary_body (boundaries : list Z) (idx : Z) : list Z :=
  if idx - last boundaries 0 >? 0 then boundaries ++ [idx] else boundaries.

(** [find_boundaries(smoothed_sims, threshold)] *)
Definition find_boundaries (smoothed_sims : array) (threshold : float)
  : list Z :=
  match where_lt smoothed_sims threshold with
  | [] => []
  | low0 :: lows => fold_left boundary_body lows [low0]
  end.

(* ================================================================= *)
(** ** Segment Length Enforcer *)

(** A SegmentRange [(start, end)], both inclusive. *)
Definition seg := (Z * Z)%type.

(** One iteration of [for b in boundaries]; the state is [(segs, start)]. *)
Definition materialize_body (st : list seg * Z) (b : Z) : list seg * Z :=
  let '(segs, start) := st in (segs ++ [(start, b)], b + 1).

(** The range list built before the merge loop. *)
Definition materialize (sentences : list str) (boundaries : list Z)
  : list seg :=
  let '(segs, start) := fold_left materialize_body boundaries ([], 0) in
  segs ++ [(start, len sentences - 1)].

(** [sum(len(sentences[i].split()) for i in idxs)] *)
Fixpoint sum_word_counts (sentences : list str) (idxs : list Z) : result Z :=
  match idxs with
  | [] => Ok 0
  | i :: rest =>
      s <- index sentences i ;;
      r <- sum_word_counts sentences rest ;;
      Ok (word_count s + r)
  end.

(** [seg_word_count(seg)] *)
Definition seg_word_count (sentences : list str) (sg : seg) : result Z :=
  let '(s, e) := sg in sum_word_counts sentences (range s (e + 1)).

Inductive action : Type := MergePrev | MergeNext | Advance.

(** What one test of the [while] condition and one run of its body do. *)
Inductive step_out : Type :=
| Step (a : action) (i : nat) (segs : list seg)
| Exit
| Raise (e : exn).

(** One iteration of [while i < len(segs)] at index [i]. *)
Definition loop_step (sentences : list str) (min_words : Z)
  (i : nat) (segs : list seg) : step_out :=
  match nth_error segs i with
  | None => Exit
  | Some (s_cur, e_cur) =>
      match seg_word_count sentences (s_cur, e_cur) with
      | Err e => Raise e
      | Ok wc =>
          if wc <? min_words then
            match i with
            | S p =>
                match nth_error segs p with
                | Some (s_prev, e_prev) =>
                    Step MergePrev (Nat.max p 0)
                         (pop (set_item segs p (s_prev, e_cur)) i)
                | None => Raise IndexError
                end
            | O =>
                match nth_error segs 1 with
                | Some (s_next, e_next) =>
                    Step MergeNext 0 (pop (set_item segs 0 (s_cur, e_next)) 1)
                | None => Step Advance 1 segs
                end
            end
          else Step Advance (S i) segs
      end
  end.

(** The [while] loop, run for at most [fuel] iterations. *)
Fixpoint loop (fuel : nat) (sentences : list str) (min_words : Z)
  (i : nat) (segs : list seg) : result (list seg) :=
  match fuel with
  | O => Err FuelExhausted
  | S fuel' =>
      match loop_step sentences min_words i segs with
      | Exit => Ok segs
      | Raise e => Err e
      | Step _ i' segs' => loop fuel' sentences min_words i' segs'
      end
  end.

(** The state of the loop after [k] iterations, or the state it stopped
    in when it stopped earlier. *)
Fixpoint state_after (k : nat) (sentences : list str) (min_words : Z)
  (i : nat) (segs : list seg) : nat * list seg :=
  match k with
  | O => (i, segs)
  | S k' =>
      match loop_step sentences min_words i segs with
      | Step _ i' segs' => state_after k' sentences min_words i' segs'
      | _ => (i, segs)
      end
  end.

(** [enforce_min_segment_length(sentences, boundaries, min_words)].  The
    fuel is twice the number of materialized ranges plus one, which the
    termination theorem shows is never used up. *)
Definition enforce_min_segment_length (sentences : list str)
  (boundaries : list Z) (min_words : Z) : result (list seg) :=
  let segs := materialize sentences boundaries in
  loop (2 * length segs + 1) sentences min_words 0 segs.

(* ================================================================= *)
(** ** Embedding Adapter and the entry point *)

(** The external embedding provider: loading a model by name and encoding
    one batch of units.  Either call may fail. *)
Record Adapter : Type := {
  model : Type;
  SentenceTransformer : str -> result model;
  encode : model -> list str -> result matrix
}.

(** The calls made to the adapter, in order. *)
Inductive event : Type :=
| LoadModel (name : str)
| Encode (batch : list str).

(** The loop of [batch_encode] over the batches. *)
Fixpoint encode_batches (A : Adapter) (embedder : model A)
  (batches : list (list str)) : list event * result (list matrix) :=
  match batches with
  | [] => ([], Ok [])
  | batch :: rest =>
      match encode A embedder batch with
      | Err e => ([Encode batch], Err e)
      | Ok emb =>
          let '(ev, r) := encode_batches A embedder rest in
          (Encode batch :: ev, embs <- r ;; Ok (emb :: embs))
      end
  end.

(** [batch_encode(embedder, sentences, batch_size)] *)
Definition batch_encode (A : Adapter) (embedder : model A)
  (sentences : list str) (batch_size : Z) : list event * result matrix :=
  let batches :=
    map (fun i => slice sentences i (i + batch_size))
        (range_step 0 (len sentences) batch_size) in
  let '(ev, r) := encode_batches A embedder batches in
  (ev, embs <- r ;; vstack embs).

(** The Segment Assembler: the text of one range. *)
Definition render (sentences : list str) (sg : seg) : str :=
  let '(s, e) := sg in strip (join [space] (slice sentences s (e + 1))).

(** [segment_transcript(transcript, merge_min_words, smooth_window,
    sim_threshold, min_segment_words, embed_model)]: the adapter calls made
    and the value returned or the exception raised. *)
Definition segment_transcript (A : Adapter) (transcript : str)
  (merge_min_words smooth_window : Z) (sim_threshold : float)
  (min_segment_words : Z) (embed_model : str)
  : list event * result (list str) :=
  let sentences := split_into_sentences transcript in
  if len sentences =? 0 then ([], Ok [])
  else
    let sentences := merge_short_sentences sentences merge_min_words in
    if len sentences <=? 4 then ([], Ok [join [space] sentences])
    else
      match SentenceTransformer A embed_model with
      | Err e => ([LoadModel embed_model], Err e)
      | Ok embedder =>
          let '(ev, r) := batch_encode A embedder sentences 64 in
          (LoadModel embed_model :: ev,
           embeddings <- r ;;
           let sims := cosine_similarities embeddings in
           smoothed <- smooth sims smooth_window ;;
           let raw_boundaries := find_boundaries smoothed sim_threshold in
           let boundaries := raw_boundaries in
           seg_ranges <-
             enforce_min_segment_length sentences boundaries min_segment_words ;;
           Ok (map (render sentences) seg_ranges))
      end.

(* ================================================================= *)
(** ** Concrete inputs used by the examples below *)

(** A stub provider that maps every unit to the vector [(1, 0)], except
    the unit ["e."], which it maps to [(0, 1)]. *)
Definition stub_vector (u : str) : array :=
  if str_eqb u (lit "e.") then [zero; one] else [one; zero].

Definition stub : Adapter := {|
  model := unit;
  SentenceTransformer := fun _ => Ok tt;
  encode := fun _ batch => Ok (map stub_vector batch)
|}.

(** The threshold [0.28] and the model name of the command line. *)
Definition threshold_028 : float := fdiv (of_int 28) (of_int 100).
Definition default_model : str := lit "all-MiniLM-L6-v2".

(** Five units of three words each, used by the examples. *)
Definition five_units : list str :=
  [lit "one two three."; lit "four five six."; lit "seven eight nine.";
   lit "ten eleven twelve."; lit "and the end."].

(** A filler utterance followed by a long sentence. *)
Definition filler_then_long : list str :=
  [lit "okay."; lit "my card was charged twice this month."].

(* ================================================================= *)
(** ** Properties stated in the specification, as predicates *)

(** Every emitted unit but the last one has at least [m] words. *)
Definition undersized_only_last (m : Z) (out : list str) : Prop :=
  forall pre u post,
    out = pre ++ u :: post -> post <> [] -> m <= word_count u.

(** The range invariant of the data model over [n] units: the first range
    starts at 0, the last one ends at [n - 1], each range starts one past
    the end of the range before it, and no range is empty. *)
Definition range_invariant (n : Z) (segs : list seg) : Prop :=
  (exists e rest, segs = (0, e) :: rest) /\
  (exists pre s, segs = pre ++ [(s, n - 1)]) /\
  (forall i a b,
      nth_error segs i = Some a -> nth_error segs (S i) = Some b ->
      fst b = snd a + 1) /\
  Forall (fun sg => fst sg <= snd sg) segs.

(** A unit: a string that starts and ends with a character that is not
    whitespace. *)
Definition wf_unit (s : str) : Prop :=
  exists c s', s = c :: s' /\ isspace c = false /\ isspace (last s c) = false.

(** The adapter contract the core relies on: one row per unit. *)
Definition one_row_per_unit (A : Adapter) : Prop :=
  forall (embedder : model A) (batch : list str) (rows : matrix),
    encode A embedder batch = Ok rows -> length rows = length batch.

(* ================================================================= *)
(** ** Further notions used in the statements *)

(** The words of a list of strings, in order. *)
Definition words_of (l : list str) : list str := concat (map split l).

(** A string whose last character is [.], [!] or [?]. *)
Definition ends_with_terminal (s : str) : Prop :=
  exists q c, s = q ++ [c] /\ is_terminal c = true.



(** The ranges [materialize] builds, by recursion on the boundaries. *)
Fixpoint ranges_from (start : Z) (boundaries : list Z) (last_index : Z)
  : list seg :=
  match boundaries with
  | [] => [(start, last_index)]
  | b :: rest => (start, b) :: ranges_from (b + 1) rest last_index
  end.

(** The number of words of a list of units. *)
Fixpoint total_words (units : list str) : Z :=
  match units with
  | [] => 0
  | u :: rest => word_count u + total_words rest
  end.

(* ================================================================= *)
(** ** Invariants used in the proofs *)

Section CoalescerInvariant.

Variable min_words : Z.
Variable from_input : str -> Prop.

(** The emitted units read from the last one backwards: a unit that
    follows an undersized one is a long input sentence. *)
Fixpoint flush_chain (emitted_rev : list str) : Prop :=
  match emitted_rev with
  | v :: (u :: _) as earlier =>
      (word_count u < min_words -> min_words <= word_count v /\ from_input v)
      /\ flush_chain earlier
  | _ => True
  end.

(** The unit emitted last, if any, is a long input sentence. *)
Definition ends_long (emitted_rev : list str) : Prop :=
  match emitted_rev with
  | [] => True
  | v :: _ => min_words <= word_count v /\ from_input v
  end.

End CoalescerInvariant.

(** The loop invariant of [merge_short_sentences]. *)
Definition coalescer_inv (min_words : Z) (from_input : str -> Prop)
  (st : list str * str) : Prop :=
  flush_chain min_words from_input (rev (fst st)) /\
  ends_long min_words from_input (rev (fst st)).

Section EnforcerInvariant.

Variable sentences : list str.
Variable min_words : Z.

(** A range whose word count is defined and meets the threshold. *)
Definition meets_minimum (sg : seg) : Prop :=
  exists wc, seg_word_count sentences sg = Ok wc /\ min_words <= wc.

End EnforcerInvariant.

(** Loop invariant: the ranges in front of the cursor meet the threshold,
    unless a single range is left. *)
Definition scanned_ok (sentences : list str) (min_words : Z)
  (i : nat) (segs : list seg) : Prop :=
  (forall j sg, (j < i)%nat -> nth_error segs j = Some sg ->
                meets_minimum sentences min_words sg)
  \/ length segs = 1%nat.

(** A list of integers that increases strictly and starts at [lo] or
    above. *)
Fixpoint ascending_from (lo : Z) (l : list Z) : Prop :=
  match l with
  | [] => True
  | x :: rest => lo <= x /\ ascending_from (x + 1) rest
  end.

(** [tiles lo segs hi]: the ranges follow one another without gap or
    overlap, none is empty, and together they cover [lo .. hi - 1]. *)
Fixpoint tiles (lo : Z) (segs : list seg) (hi : Z) : Prop :=
  match segs with
  | [] => lo = hi
  | (s, e) :: rest => s = lo /\ s <= e /\ tiles (e + 1) rest hi
  end.

(* ================================================================= *)
(** * Proofs *)

(* ----------------------------------------------------------------- *)
(** ** The translation on small inputs *)

Example split_into_sentences_example :
  split_into_sentences (lit "  Hello there.  How are you?   fine")
  = [lit "Hello there."; lit "How are you?"; lit "fine"].
Proof. reflexivity. Qed.

Example split_example :
  split (lit " my  card was charged ") = [lit "my"; lit "card"; lit "was"; lit "charged"].
Proof. reflexivity. Qed.

Example merge_short_sentences_example :
  merge_short_sentences
    [lit "okay."; lit "yes."; lit "my card was charged twice this month.";
     lit "thanks."] 6
  = [lit "okay. yes."; lit "my card was charged twice this month.";
     lit "thanks."].
Proof. reflexivity. Qed.

Example find_boundaries_example :
  find_boundaries [one; zero; one; zero; zero] threshold_028 = [1; 3; 4].
Proof. reflexivity. Qed.

Example enforce_min_segment_length_example :
  materialize five_units [0; 1; 3] = [(0, 0); (1, 1); (2, 3); (4, 4)] /\
  enforce_min_segment_length five_units [0; 1; 3] 5 = Ok [(0, 1); (2, 4)].
Proof. split; reflexivity. Qed.

(* ----------------------------------------------------------------- *)
(** ** Strings *)

Lemma lstrip_all_space (s : str) :
  forallb isspace s = true -> lstrip s = [].
Proof.
  induction s as [|c s IH]; simpl; [reflexivity|].
  intros H. apply andb_true_iff in H as [Hc Hs].
  rewrite Hc. exact (IH Hs).
Qed.

Lemma strip_all_space (s : str) :
  forallb isspace s = true -> strip s = [].
Proof.
  intros H. unfold strip, rstrip. rewrite (lstrip_all_space s H). reflexivity.
Qed.

(* ----------------------------------------------------------------- *)
(** ** Tokenizer on blank input, and the two early returns *)

Lemma split_into_sentences_blank (t : str) :
  forallb isspace t = true -> split_into_sentences t = [].
Proof.
  intros H. unfold split_into_sentences.
  rewrite (strip_all_space t H). reflexivity.
Qed.

Lemma merge_short_sentences_nil (m : Z) : merge_short_sentences [] m = [].
Proof. reflexivity. Qed.

(** C9: an empty or whitespace-only transcript is tokenized to the empty
    sentence sequence, and [segment_transcript] returns the empty segment
    list without any call to the Embedding Adapter, for every adapter and
    every configuration. *)
Theorem blank_transcript_no_segments :
  forall (A : Adapter) (t : str) (merge_min_words smooth_window : Z)
         (sim_threshold : float) (min_segment_words : Z) (embed_model : str),
    forallb isspace t = true ->
    split_into_sentences t = [] /\
    segment_transcript A t merge_min_words smooth_window sim_threshold
                       min_segment_words embed_model = ([], Ok []).
Proof.
  intros A t m w th ms em H.
  pose proof (split_into_sentences_blank t H) as E.
  split; [exact E|].
  unfold segment_transcript. rewrite E. reflexivity.
Qed.

Lemma blank_transcript_no_segments_witness :
  split_into_sentences (lit "  ") = [] /\
  segment_transcript stub (lit "  ") 6 3 threshold_028 35 default_model
  = ([], Ok []).
Proof.
  apply (blank_transcript_no_segments stub (lit "  ") 6 3 threshold_028 35
           default_model).
  reflexivity.
Defined.

(** C8: when the Coalescer leaves between one and four units, the result
    is the single segment made of the units joined by one space, and no
    call to the Embedding Adapter is made. *)
Theorem short_transcript_single_segment :
  forall (A : Adapter) (t : str) (merge_min_words smooth_window : Z)
         (sim_threshold : float) (min_segment_words : Z) (embed_model : str),
    let units := merge_short_sentences (split_into_sentences t) merge_min_words in
    1 <= len units <= 4 ->
    segment_transcript A t merge_min_words smooth_window sim_threshold
                       min_segment_words embed_model
    = ([], Ok [join [space] units]).
Proof.
  intros A t m w th ms em units [Hlo Hhi].
  unfold segment_transcript. fold units.
  destruct (split_into_sentences t) as [|s0 ss] eqn:E.
  - subst units. rewrite merge_short_sentences_nil in Hlo.
    unfold len in Hlo. simpl in Hlo. lia.
  - replace (len (s0 :: ss) =? 0) with false.
    + apply Z.leb_le in Hhi. rewrite Hhi. reflexivity.
    + symmetry. apply Z.eqb_neq. unfold len. simpl length. lia.
Qed.

Lemma short_transcript_single_segment_witness :
  segment_transcript stub (lit "Hi. I need help. Thanks.") 6 3 threshold_028
                     35 default_model
  = ([], Ok [lit "Hi. I need help. Thanks."]).
Proof.
  apply (short_transcript_single_segment stub (lit "Hi. I need help. Thanks.")
           6 3 threshold_028 35 default_model).
  vm_compute. split; discriminate.
Defined.

(* ----------------------------------------------------------------- *)
(** ** Utterance Coalescer *)

Section Coalescer.

Variable min_words : Z.
Variable from_input : str -> Prop.

Lemma flush_chain_long (v : str) (earlier : list str) :
  min_words <= word_count v -> from_input v ->
  flush_chain min_words from_input earlier ->
  flush_chain min_words from_input (v :: earlier).
Proof.
  intros Hv Hin Hc. destruct earlier as [|u e]; simpl; auto.
Qed.

Lemma flush_chain_after_long (b : str) (earlier : list str) :
  ends_long min_words from_input earlier ->
  flush_chain min_words from_input earlier ->
  flush_chain min_words from_input (b :: earlier).
Proof.
  intros He Hc. destruct earlier as [|u e]; [exact I|].
  simpl in He. split; [|exact Hc].
  intros Hu. lia.
Qed.

Lemma flush_chain_adjacent (later earlier : list str) (u v : str) :
  flush_chain min_words from_input (later ++ v :: u :: earlier) ->
  word_count u < min_words -> min_words <= word_count v /\ from_input v.
Proof.
  induction later as [|x later IH]; intros Hc Hu.
  - simpl in Hc. destruct Hc as [H _]. exact (H Hu).
  - apply IH; [|exact Hu].
    change ((x :: later) ++ v :: u :: earlier)
      with (x :: (later ++ v :: u :: earlier)) in Hc.
    destruct (later ++ v :: u :: earlier) eqn:E.
    + destruct later; discriminate.
    + simpl in Hc. exact (proj2 Hc).
Qed.

Lemma merge_body_inv (st : list str * str) (s : str) :
  from_input s -> coalescer_inv min_words from_input st ->
  coalescer_inv min_words from_input (merge_body min_words st s).
Proof.
  intros Hs [Hc He]. destruct st as [merged buffer]. unfold merge_body.
  simpl fst in *.
  destruct (word_count s <? min_words) eqn:Hw; [split; assumption|].
  apply Z.ltb_ge in Hw.
  destruct (truthy buffer); unfold coalescer_inv; simpl fst;
    rewrite !rev_unit.
  - split; [|split; assumption].
    apply flush_chain_long; auto.
    apply flush_chain_after_long; assumption.
  - split; [|split; assumption]. apply flush_chain_long; auto.
Qed.

Lemma merge_fold_inv (l : list str) (st : list str * str) :
  (forall s, In s l -> from_input s) ->
  coalescer_inv min_words from_input st ->
  coalescer_inv min_words from_input (fold_left (merge_body min_words) l st).
Proof.
  revert st. induction l as [|s l IH]; intros st Hl Hst; [exact Hst|].
  simpl. apply IH.
  - intros x Hx. apply Hl. right. exact Hx.
  - apply merge_body_inv; [apply Hl; left; reflexivity | exact Hst].
Qed.

Lemma merge_short_sentences_chain (sentences : list str) :
  (forall s, In s sentences -> from_input s) ->
  flush_chain min_words from_input (rev (merge_short_sentences sentences min_words)).
Proof.
  intros Hl. unfold merge_short_sentences.
  pose proof (merge_fold_inv sentences ([], []) Hl) as H.
  destruct (fold_left (merge_body min_words) sentences ([], []))
    as [merged buffer].
  destruct H as [Hc He]; [split; exact I|]. simpl fst in *.
  destruct (truthy buffer); [|exact Hc].
  rewrite rev_unit.
  apply flush_chain_after_long; assumption.
Qed.

End Coalescer.

(** C1, as the code has it: an emitted unit with fewer than
    [merge_min_words] words is a flushed buffer, so it is either the last
    unit or is immediately followed by an input sentence that meets the
    threshold. *)
Theorem merge_short_sentences_undersized_is_flush :
  forall (sentences : list str) (merge_min_words : Z)
         (pre : list str) (u v : str) (post : list str),
    merge_short_sentences sentences merge_min_words = pre ++ u :: v :: post ->
    word_count u < merge_min_words ->
    merge_min_words <= word_count v /\ In v sentences.
Proof.
  intros sentences m pre u v post E Hu.
  pose proof (merge_short_sentences_chain m (fun s => In s sentences)
                sentences (fun s H => H)) as Hc.
  rewrite E in Hc. rewrite rev_app_distr in Hc. simpl in Hc.
  repeat rewrite <- app_assoc in Hc. simpl in Hc.
  exact (flush_chain_adjacent m _ (rev post) (rev pre) u v Hc Hu).
Qed.

Lemma merge_short_sentences_undersized_is_flush_witness :
  6 <= word_count (lit "my card was charged twice this month.") /\
  In (lit "my card was charged twice this month.") filler_then_long.
Proof.
  apply (merge_short_sentences_undersized_is_flush filler_then_long 6
           [] (lit "okay.") (lit "my card was charged twice this month.") []).
  - reflexivity.
  - reflexivity.
Defined.

(** C1 as stated fails: a buffer flushed in front of a long sentence is
    emitted undersized although it is not the last unit. *)
Lemma merge_short_sentences_undersized_not_last :
  1 <= 6 /\ ~ undersized_only_last 6 (merge_short_sentences filler_then_long 6).
Proof.
  split; [lia|]. intros H.
  specialize (H [] (lit "okay.")
                [lit "my card was charged twice this month."]
                eq_refl ltac:(discriminate)).
  vm_compute in H. apply H. reflexivity.
Qed.

(* ----------------------------------------------------------------- *)
(** ** Boundary Extractor *)

(** [x < t1] and [t1 <= t2] give [x < t2] on binary64 values; none of the
    three is NaN under these hypotheses. *)
Lemma flt_fle_trans (x t1 t2 : float) :
  flt x t1 = true -> fle t1 t2 = true -> flt x t2 = true.
Proof.
  unfold flt, fle, SFltb, SFleb.
  destruct x as [sx|sx| |sx mx ex], t1 as [s1|s1| |s1 m1 e1],
    t2 as [s2|s2| |s2 m2 e2]; simpl;
    try discriminate; try reflexivity;
    repeat match goal with
           | s : bool |- _ => destruct s
           end; simpl; try discriminate; try reflexivity.
  all: change (Pos.compare_cont Eq ?a ?b) with (Pos.compare a b).
  all: destruct (Z.compare_spec ex e1); try discriminate;
       destruct (Z.compare_spec e1 e2); try discriminate;
       destruct (Z.compare_spec ex e2); try discriminate; try reflexivity;
       try lia; subst.
  all: destruct (Pos.compare_spec mx m1); simpl; try discriminate;
       destruct (Pos.compare_spec m1 m2); simpl; try discriminate;
       destruct (Pos.compare_spec mx m2); simpl; try discriminate;
       try reflexivity; try lia.
Qed.

Lemma ascending_from_weaken (lo lo' : Z) (l : list Z) :
  lo' <= lo -> ascending_from lo l -> ascending_from lo' l.
Proof.
  destruct l as [|x l]; simpl; [auto|]. intros H [H1 H2]. split; [lia|exact H2].
Qed.

Lemma where_lt_from_ascending (a : array) (t : float) (i : Z) :
  ascending_from i (where_lt_from i a t).
Proof.
  revert i. induction a as [|x a IH]; intros i; simpl; [exact I|].
  destruct (flt x t); simpl.
  - split; [lia|apply IH].
  - apply ascending_from_weaken with (lo := i + 1); [lia|apply IH].
Qed.

Lemma where_lt_from_bounds (a : array) (t : float) (i x : Z) :
  In x (where_lt_from i a t) -> i <= x < i + len a.
Proof.
  revert i. unfold len.
  induction a as [|y a IH]; intros i; simpl; [tauto|].
  destruct (flt y t); simpl; intros H.
  - destruct H as [H|H]; [lia|]. apply IH in H. lia.
  - apply IH in H. lia.
Qed.

(** The filtering loop keeps every index of an ascending list. *)
Lemma boundary_fold_keeps_all (lows acc : list Z) :
  acc <> [] -> ascending_from (last acc 0 + 1) lows ->
  fold_left boundary_body lows acc = acc ++ lows.
Proof.
  revert acc. induction lows as [|x lows IH]; intros acc Hne Hasc; simpl.
  - symmetry. apply app_nil_r.
  - destruct Hasc as [Hx Hrest].
    unfold boundary_body at 2.
    replace (x - last acc 0 >? 0) with true
      by (symmetry; apply Z.gtb_lt; lia).
    rewrite IH.
    + rewrite <- app_assoc. reflexivity.
    + destruct acc; discriminate.
    + rewrite last_last. exact Hrest.
Qed.

Lemma find_boundaries_where_lt (smoothed : array) (t : float) :
  find_boundaries smoothed t = where_lt smoothed t.
Proof.
  unfold find_boundaries.
  pose proof (where_lt_from_ascending smoothed t 0) as H.
  fold (where_lt smoothed t) in H.
  destruct (where_lt smoothed t) as [|low0 lows]; [reflexivity|].
  destruct H as [_ H].
  rewrite boundary_fold_keeps_all; [reflexivity|discriminate|exact H].
Qed.

Lemma where_lt_from_monotone (a : array) (t1 t2 : float) (i : Z) :
  fle t1 t2 = true ->
  (length (where_lt_from i a t1) <= length (where_lt_from i a t2))%nat.
Proof.
  intros Ht. revert i. induction a as [|x a IH]; intros i; simpl; [lia|].
  destruct (flt x t1) eqn:E1.
  - rewrite (flt_fle_trans x t1 t2 E1 Ht). simpl.
    specialize (IH (i + 1)). lia.
  - destruct (flt x t2); simpl; specialize (IH (i + 1)); lia.
Qed.

(** C7: for one smoothed series and two thresholds [t1 <= t2], the
    Boundary Extractor yields at least as many candidate boundaries at
    [t2] as at [t1]. *)
Theorem find_boundaries_threshold_monotone :
  forall (smoothed : array) (t1 t2 : float),
    fle t1 t2 = true ->
    (length (find_boundaries smoothed t1)
     <= length (find_boundaries smoothed t2))%nat.
Proof.
  intros smoothed t1 t2 Ht.
  rewrite !find_boundaries_where_lt.
  apply where_lt_from_monotone. exact Ht.
Qed.

Lemma find_boundaries_threshold_monotone_witness :
  (length (find_boundaries [one; zero; one; threshold_028] threshold_028)
   <= length (find_boundaries [one; zero; one; threshold_028] one))%nat.
Proof.
  apply (find_boundaries_threshold_monotone
           [one; zero; one; threshold_028] threshold_028 one).
  reflexivity.
Defined.

(* ----------------------------------------------------------------- *)
(** ** Smoother *)

Lemma smooth_noop (a : array) (window : Z) :
  window <= 1 -> smooth a window = Ok a.
Proof.
  intros H. unfold smooth. apply Z.leb_le in H. rewrite H. reflexivity.
Qed.

Lemma pad_edge_length (a : array) (pad : Z) :
  a <> [] -> 0 <= pad ->
  exists padded, pad_edge a pad = Ok padded /\
                 length padded = (length a + 2 * Z.to_nat pad)%nat.
Proof.
  intros Ha Hp. destruct a as [|x a]; [congruence|].
  unfold pad_edge. replace (pad <? 0) with false
    by (symmetry; apply Z.ltb_ge; exact Hp).
  eexists. split; [reflexivity|].
  rewrite !length_app, !repeat_length. lia.
Qed.

Lemma windows_length (m : nat) (a : array) :
  length (windows m a) = (length a - m + 1)%nat.
Proof. unfold windows. rewrite length_map, length_seq. reflexivity. Qed.

Lemma convolve_valid_length (a v : array) :
  a <> [] -> v <> [] -> (length v <= length a)%nat ->
  exists out, convolve_valid a v = Ok out /\
              length out = (length a - length v + 1)%nat.
Proof.
  intros Ha Hv Hle. destruct a as [|x a]; [congruence|].
  destruct v as [|y v]; [congruence|].
  unfold convolve_valid.
  replace (Nat.ltb (length (x :: a)) (length (y :: v))) with false
    by (symmetry; apply Nat.ltb_ge; exact Hle).
  eexists. split; [reflexivity|].
  rewrite length_map, windows_length. reflexivity.
Qed.

Lemma box_kernel_length (window : Z) :
  length (box_kernel window) = Z.to_nat window.
Proof. unfold box_kernel. apply repeat_length. Qed.

(** The shape of the smoothed series for any window above one. *)
Lemma smooth_length (a : array) (window : Z) :
  a <> [] -> 1 < window ->
  exists out, smooth a window = Ok out /\
              len out = len a + 2 * (window / 2) - window + 1.
Proof.
  intros Ha Hw. unfold smooth.
  replace (window <=? 1) with false by (symmetry; apply Z.leb_gt; exact Hw).
  assert (Hpad : 0 <= window / 2) by (apply Z.div_pos; lia).
  destruct (pad_edge_length a (window / 2) Ha Hpad) as [padded [Ep Lp]].
  rewrite Ep. simpl rbind.
  assert (Hmod : window = 2 * (window / 2) + window mod 2)
    by (apply Z.div_mod; lia).
  pose proof (Z.mod_pos_bound window 2 ltac:(lia)) as Hb.
  assert (Hla : (1 <= length a)%nat)
    by (destruct a; [congruence|simpl; lia]).
  destruct (convolve_valid_length padded (box_kernel window)) as [out [Eo Lo]].
  - intros ->. simpl in Lp. lia.
  - intros E. apply (f_equal (@length _)) in E.
    rewrite box_kernel_length in E. simpl in E. lia.
  - rewrite box_kernel_length, Lp. lia.
  - exists out. split; [exact Eo|].
    unfold len. rewrite Lo, box_kernel_length, Lp. lia.
Qed.

Lemma smooth_odd_length (a : array) (k : Z) :
  a <> [] -> 1 <= k ->
  exists out, smooth a (2 * k + 1) = Ok out /\ len out = len a.
Proof.
  intros Ha Hk.
  destruct (smooth_length a (2 * k + 1) Ha ltac:(lia)) as [out [E L]].
  exists out. split; [exact E|].
  replace ((2 * k + 1) / 2) with k in L; [lia|].
  apply Z.div_unique with (r := 1); lia.
Qed.

Lemma smooth_even_length (a : array) (k : Z) :
  a <> [] -> 1 <= k ->
  exists out, smooth a (2 * k) = Ok out /\ len out = len a + 1.
Proof.
  intros Ha Hk.
  destruct (smooth_length a (2 * k) Ha ltac:(lia)) as [out [E L]].
  exists out. split; [exact E|].
  replace (2 * k / 2) with k in L; [lia|].
  apply Z.div_unique with (r := 0); lia.
Qed.

Lemma smooth_empty_raises (window : Z) :
  1 < window -> smooth [] window = Err ValueError.
Proof.
  intros Hw. unfold smooth.
  replace (window <=? 1) with false by (symmetry; apply Z.leb_gt; exact Hw).
  unfold pad_edge.
  replace (window / 2 =? 0) with false; [reflexivity|].
  symmetry. apply Z.eqb_neq. intros E.
  pose proof (Z.div_mod window 2 ltac:(lia)) as Hm.
  pose proof (Z.mod_pos_bound window 2 ltac:(lia)). lia.
Qed.

(** C2 at an even width: a series of four values smoothed with
    [smooth_window = 2] comes back with five values, one more than the
    input, while the widths one and three return four. *)
Theorem smooth_even_window_grows :
  exists out2 out3,
    smooth [one; one; one; zero] 2 = Ok out2 /\ length out2 = 5%nat /\
    smooth [one; one; one; zero] 3 = Ok out3 /\ length out3 = 4%nat /\
    smooth [one; one; one; zero] 1 = Ok [one; one; one; zero].
Proof.
  destruct (smooth_even_length [one; one; one; zero] 1) as [o2 [E2 L2]];
    [discriminate|lia|].
  destruct (smooth_odd_length [one; one; one; zero] 1) as [o3 [E3 L3]];
    [discriminate|lia|].
  exists o2, o3. change (2 * 1) with 2 in E2. change (2 * 1 + 1) with 3 in E3.
  unfold len in L2, L3. simpl length in L2, L3.
  repeat split; try assumption; try lia.
Qed.

(* ----------------------------------------------------------------- *)
(** ** Segment Length Enforcer: one iteration *)

Lemma nth_error_adjacent {A} (l : list A) (p : nat) (x y : A) :
  nth_error l p = Some x -> nth_error l (S p) = Some y ->
  exists l1 l2, l = l1 ++ x :: y :: l2 /\ length l1 = p.
Proof.
  revert l. induction p as [|p IH]; intros l Hx Hy.
  - destruct l as [|a [|b l]]; simpl in *; try discriminate.
    injection Hx as ->. injection Hy as ->. exists [], l. auto.
  - destruct l as [|a l]; [discriminate|].
    destruct (IH l Hx Hy) as [l1 [l2 [E L]]].
    exists (a :: l1), l2. simpl. rewrite E, L. auto.
Qed.

Lemma pop_set_item_adjacent {A} (l1 l2 : list A) (x y v : A) :
  pop (set_item (l1 ++ x :: y :: l2) (length l1) v) (S (length l1))
  = l1 ++ v :: l2.
Proof.
  induction l1 as [|a l1 IH]; [reflexivity|].
  simpl. simpl in IH. rewrite IH. reflexivity.
Qed.

(** What an iteration that continues has done: either it advanced over a
    range, or it replaced two adjacent ranges by their union. *)
Lemma loop_step_cases (sentences : list str) (min_words : Z)
  (i : nat) (segs : list seg) (a : action) (i' : nat) (segs' : list seg) :
  loop_step sentences min_words i segs = Step a i' segs' ->
  (a = Advance /\ i' = S i /\ segs' = segs /\
   exists sg wc, nth_error segs i = Some sg /\
                 seg_word_count sentences sg = Ok wc /\
                 (min_words <= wc \/ (i = 0%nat /\ length segs = 1%nat)))
  \/
  (a <> Advance /\
   exists l1 s1 e1 s2 e2 l2,
     segs = l1 ++ (s1, e1) :: (s2, e2) :: l2 /\
     segs' = l1 ++ (s1, e2) :: l2 /\
     i' = length l1 /\
     ((a = MergePrev /\ i = S (length l1)) \/
      (a = MergeNext /\ i = 0%nat /\ l1 = []))).
Proof.
  unfold loop_step. intros H.
  destruct (nth_error segs i) as [[s_cur e_cur]|] eqn:Ei; [|discriminate].
  destruct (seg_word_count sentences (s_cur, e_cur)) as [wc|] eqn:Ew;
    [|discriminate].
  destruct (wc <? min_words) eqn:Hlt.
  - destruct i as [|p].
    + destruct (nth_error segs 1) as [[s_next e_next]|] eqn:E1.
      * injection H as <- <- <-. right. split; [discriminate|].
        destruct (nth_error_adjacent segs 0 _ _ Ei E1) as [l1 [l2 [E L]]].
        destruct l1; [|discriminate]. simpl in E. subst segs.
        exists [], s_cur, e_cur, s_next, e_next, l2. simpl. auto 10.
      * injection H as <- <- <-. left. repeat split; auto.
        exists (s_cur, e_cur), wc. repeat split; auto. right. split; auto.
        destruct segs as [|x [|y l]]; simpl in *; try discriminate; auto.
    + destruct (nth_error segs p) as [[s_prev e_prev]|] eqn:Ep; [|discriminate].
      injection H as <- <- <-. right. split; [discriminate|].
      destruct (nth_error_adjacent segs p _ _ Ep Ei) as [l1 [l2 [E L]]].
      subst segs p.
      exists l1, s_prev, e_prev, s_cur, e_cur, l2.
      rewrite pop_set_item_adjacent, Nat.max_0_r. auto 10.
  - injection H as <- <- <-. left. repeat split; auto.
    exists (s_cur, e_cur), wc. apply Z.ltb_ge in Hlt. auto.
Qed.

Lemma sum_word_counts_error (sentences : list str) (idxs : list Z) (e : exn) :
  sum_word_counts sentences idxs = Err e -> e = IndexError.
Proof.
  induction idxs as [|i idxs IH]; simpl; [discriminate|].
  unfold index.
  destruct ((0 <=? (if i <? 0 then i + len sentences else i))
            && ((if i <? 0 then i + len sentences else i) <? len sentences)).
  - destruct (nth_error sentences _); simpl.
    + destruct (sum_word_counts sentences idxs); simpl; [discriminate|].
      intros H. injection H as <-. apply IH. reflexivity.
    + intros H. injection H as <-. reflexivity.
  - simpl. intros H. injection H as <-. reflexivity.
Qed.

Lemma loop_step_raise (sentences : list str) (min_words : Z)
  (i : nat) (segs : list seg) (e : exn) :
  loop_step sentences min_words i segs = Raise e -> e = IndexError.
Proof.
  unfold loop_step.
  destruct (nth_error segs i) as [[s_cur e_cur]|]; [|discriminate].
  destruct (seg_word_count sentences (s_cur, e_cur)) as [wc|] eqn:Ew.
  - destruct (wc <? min_words); [|discriminate].
    destruct i as [|p].
    + destruct (nth_error segs 1) as [[? ?]|]; discriminate.
    + destruct (nth_error segs p) as [[? ?]|]; [discriminate|].
      intros H. injection H as <-. reflexivity.
  - intros H. injection H as <-.
    apply (sum_word_counts_error sentences _ _ Ew).
Qed.

(** A merge removes exactly one range and leaves at least one; an
    iteration that does not merge leaves the list alone. *)
Lemma loop_step_count (sentences : list str) (min_words : Z)
  (i : nat) (segs : list seg) (a : action) (i' : nat) (segs' : list seg) :
  loop_step sentences min_words i segs = Step a i' segs' ->
  (a = Advance -> segs' = segs) /\
  (a <> Advance -> S (length segs') = length segs /\ (1 <= length segs')%nat).
Proof.
  intros H. apply loop_step_cases in H.
  destruct H as [[-> [_ [-> _]]] | [Hne [l1 [s1 [e1 [s2 [e2 [l2 [-> [-> _]]]]]]]]]].
  - split; [reflexivity|congruence].
  - split; [intros; contradiction|]. intros _.
    rewrite !length_app. simpl. lia.
Qed.

(** The variant of the loop: [2 * len(segs) - i] drops at every iteration,
    and [i] never passes the end of the list. *)
Lemma loop_step_variant (sentences : list str) (min_words : Z)
  (i : nat) (segs : list seg) (a : action) (i' : nat) (segs' : list seg) :
  loop_step sentences min_words i segs = Step a i' segs' ->
  (i < length segs)%nat /\ (i' <= length segs')%nat /\
  (2 * length segs' - i' < 2 * length segs - i)%nat.
Proof.
  intros H. apply loop_step_cases in H.
  destruct H as [[_ [-> [-> [sg [wc [Hn _]]]]]]
                | [_ [l1 [s1 [e1 [s2 [e2 [l2 [-> [-> [-> Hi]]]]]]]]]]].
  - assert (i < length segs)%nat by (apply nth_error_Some; congruence). lia.
  - rewrite !length_app. simpl.
    destruct Hi as [[_ ->] | [_ [-> ->]]]; simpl; lia.
Qed.

(* ----------------------------------------------------------------- *)
(** ** Segment Length Enforcer: termination *)

Lemma loop_terminates (sentences : list str) (min_words : Z) (n : nat) :
  forall (i : nat) (segs : list seg),
    (i <= length segs)%nat -> (2 * length segs - i <= n)%nat ->
    exists (k : nat) (r : result (list seg)),
      (k <= n)%nat /\ r <> Err FuelExhausted /\
      forall fuel, (k < fuel)%nat -> loop fuel sentences min_words i segs = r.
Proof.
  induction n as [|n IH]; intros i segs Hi Hn.
  - assert (E : nth_error segs i = None) by (apply nth_error_None; lia).
    exists 0%nat, (Ok segs). repeat split; [lia|discriminate|].
    intros fuel Hf. destruct fuel; [lia|]. simpl. unfold loop_step.
    rewrite E. reflexivity.
  - destruct (loop_step sentences min_words i segs) as [a i' segs'| |e] eqn:Es.
    + destruct (loop_step_variant _ _ _ _ _ _ _ Es) as [H1 [H2 H3]].
      destruct (IH i' segs' H2 ltac:(lia)) as [k [r [Hk [Hr Hrun]]]].
      exists (S k), r. repeat split; [lia|exact Hr|].
      intros fuel Hf. destruct fuel; [lia|]. simpl. rewrite Es.
      apply Hrun. lia.
    + exists 0%nat, (Ok segs). repeat split; [lia|discriminate|].
      intros fuel Hf. destruct fuel; [lia|]. simpl. rewrite Es. reflexivity.
    + exists 0%nat, (Err e). repeat split; [lia| |].
      * rewrite (loop_step_raise _ _ _ _ _ Es). discriminate.
      * intros fuel Hf. destruct fuel; [lia|]. simpl. rewrite Es. reflexivity.
Qed.

(** C6: the merge loop of the Enforcer terminates.  From the materialized
    ranges it stops within twice their number of iterations, with the
    same outcome for every larger iteration budget, so the budget built
    into [enforce_min_segment_length] is never exhausted; and each merge
    lowers the number of ranges by exactly one without emptying the
    list. *)
Theorem enforce_min_segment_length_terminates :
  forall (sentences : list str) (boundaries : list Z) (min_words : Z),
    let segs0 := materialize sentences boundaries in
    (exists (k : nat) (r : result (list seg)),
        (k <= 2 * length segs0)%nat /\ r <> Err FuelExhausted /\
        (forall fuel, (k < fuel)%nat ->
                      loop fuel sentences min_words 0 segs0 = r) /\
        enforce_min_segment_length sentences boundaries min_words = r) /\
    (forall i segs a i' segs',
        loop_step sentences min_words i segs = Step a i' segs' ->
        a <> Advance ->
        S (length segs') = length segs /\ (1 <= length segs')%nat).
Proof.
  intros sentences boundaries min_words segs0. split.
  - destruct (loop_terminates sentences min_words (2 * length segs0) 0 segs0)
      as [k [r [Hk [Hr Hrun]]]]; [lia|lia|].
    exists k, r. repeat split; auto.
    unfold enforce_min_segment_length. fold segs0. apply Hrun. lia.
  - intros i segs a i' segs' Hs Ha.
    exact (proj2 (loop_step_count _ _ _ _ _ _ _ Hs) Ha).
Qed.

(* ----------------------------------------------------------------- *)
(** ** Segment Length Enforcer: minimum size *)

Section MinimumSize.

Variable sentences : list str.
Variable min_words : Z.

Lemma scanned_ok_step (i : nat) (segs : list seg) (a : action)
  (i' : nat) (segs' : list seg) :
  loop_step sentences min_words i segs = Step a i' segs' ->
  scanned_ok sentences min_words i segs ->
  scanned_ok sentences min_words i' segs'.
Proof.
  intros Hs Hinv. apply loop_step_cases in Hs.
  destruct Hs as [[_ [-> [-> [sg [wc [Hn [Hw Hc]]]]]]]
                 | [_ [l1 [s1 [e1 [s2 [e2 [l2 [-> [-> [-> Hi]]]]]]]]]]].
  - destruct Hc as [Hc | [_ Hc]]; [|right; exact Hc].
    destruct Hinv as [Hinv | Hinv]; [|right; exact Hinv].
    left. intros j sg' Hj Hnj.
    destruct (Nat.eq_dec j i) as [-> | Hne].
    + rewrite Hn in Hnj. injection Hnj as <-. exists wc. auto.
    + apply (Hinv j); [lia|exact Hnj].
  - destruct Hinv as [Hinv | Hinv].
    + left. intros j sg Hj Hnj.
      rewrite nth_error_app1 in Hnj by exact Hj.
      apply (Hinv j).
      * destruct Hi as [[_ ->] | [_ [-> ->]]]; simpl in *; lia.
      * rewrite nth_error_app1 by exact Hj. exact Hnj.
    + rewrite length_app in Hinv. simpl in Hinv. lia.
Qed.

Lemma scanned_ok_exit (i : nat) (segs : list seg) :
  loop_step sentences min_words i segs = Exit ->
  scanned_ok sentences min_words i segs ->
  length segs = 1%nat \/ Forall (meets_minimum sentences min_words) segs.
Proof.
  intros Hs [Hinv | Hinv]; [|left; exact Hinv].
  right. apply Forall_forall. intros sg Hin.
  destruct (In_nth_error _ _ Hin) as [j Hj].
  apply (Hinv j); [|exact Hj].
  assert (Hlt : (j < length segs)%nat) by (apply nth_error_Some; congruence).
  assert (Hge : (length segs <= i)%nat).
  { apply nth_error_None. unfold loop_step in Hs.
    destruct (nth_error segs i) as [[s_cur e_cur]|]; [|reflexivity].
    destruct (seg_word_count sentences (s_cur, e_cur)) as [wc|];
      [|discriminate].
    destruct (wc <? min_words); [|discriminate].
    destruct i as [|p].
    - destruct (nth_error segs 1) as [[? ?]|]; discriminate.
    - destruct (nth_error segs p) as [[? ?]|]; discriminate. }
  lia.
Qed.

Lemma loop_minimum (fuel : nat) :
  forall (i : nat) (segs out : list seg),
    scanned_ok sentences min_words i segs ->
    loop fuel sentences min_words i segs = Ok out ->
    length out = 1%nat \/ Forall (meets_minimum sentences min_words) out.
Proof.
  induction fuel as [|fuel IH]; intros i segs out Hinv Hrun;
    [discriminate|].
  simpl in Hrun.
  destruct (loop_step sentences min_words i segs) as [a i' segs'| |e] eqn:Es.
  - apply (IH i' segs' out); [|exact Hrun].
    exact (scanned_ok_step _ _ _ _ _ Es Hinv).
  - injection Hrun as <-. exact (scanned_ok_exit _ _ Es Hinv).
  - discriminate.
Qed.

End MinimumSize.

(** C4: when the Enforcer returns, either exactly one range is left, or
    every range has a word count, the sum of the word counts of its
    units, of at least [min_segment_words]. *)
Theorem enforce_min_segment_length_minimum :
  forall (sentences : list str) (boundaries : list Z) (min_words : Z)
         (out : list seg),
    enforce_min_segment_length sentences boundaries min_words = Ok out ->
    length out = 1%nat \/
    Forall (fun sg => exists wc, seg_word_count sentences sg = Ok wc /\
                                 min_words <= wc) out.
Proof.
  intros sentences boundaries min_words out H.
  unfold enforce_min_segment_length in H.
  apply (loop_minimum sentences min_words _ 0%nat _ out) in H; [exact H|].
  left. intros j sg Hj. lia.
Qed.

Lemma enforce_min_segment_length_minimum_witness :
  length [(0, 1); (2, 4)] = 1%nat \/
  Forall (fun sg => exists wc, seg_word_count five_units sg = Ok wc /\ 5 <= wc)
         [(0, 1); (2, 4)].
Proof.
  apply (enforce_min_segment_length_minimum five_units [0; 1; 3] 5).
  reflexivity.
Defined.

Lemma enforce_min_segment_length_terminates_witness :
  exists (k : nat) (r : result (list seg)),
    (k <= 2 * length (materialize five_units [0; 1; 3]%Z))%nat /\
    r <> Err FuelExhausted /\
    (forall fuel, (k < fuel)%nat ->
       loop fuel five_units 5 0 (materialize five_units [0; 1; 3]%Z) = r) /\
    enforce_min_segment_length five_units [0; 1; 3] 5 = r.
Proof.
  exact (proj1 (enforce_min_segment_length_terminates five_units [0; 1; 3] 5)).
Defined.

(* ----------------------------------------------------------------- *)
(** ** Segment Length Enforcer: the ranges partition the units *)

Lemma tiles_app (l1 l2 : list seg) (lo mid hi : Z) :
  tiles lo l1 mid -> tiles mid l2 hi -> tiles lo (l1 ++ l2) hi.
Proof.
  revert lo. induction l1 as [|[s e] l1 IH]; intros lo H1 H2; simpl in *.
  - subst. exact H2.
  - destruct H1 as [Hs [Hle Hr]]. repeat split; auto.
Qed.

Lemma tiles_merge (l1 l2 : list seg) (s1 e1 s2 e2 lo hi : Z) :
  tiles lo (l1 ++ (s1, e1) :: (s2, e2) :: l2) hi ->
  tiles lo (l1 ++ (s1, e2) :: l2) hi.
Proof.
  revert lo. induction l1 as [|[s e] l1 IH]; intros lo H; simpl in *.
  - destruct H as [Hs [Hle [Hs2 [Hle2 Hr]]]]. repeat split; auto. lia.
  - destruct H as [Hs [Hle Hr]]. repeat split; auto.
Qed.

Lemma tiles_bounds (segs : list seg) (lo hi : Z) :
  tiles lo segs hi -> lo <= hi.
Proof.
  revert lo. induction segs as [|[s e] segs IH]; intros lo H; simpl in H.
  - lia.
  - destruct H as [Hs [Hle Hr]]. apply IH in Hr. lia.
Qed.

Lemma tiles_adjacent (segs : list seg) (lo hi : Z) (i : nat) (a b : seg) :
  tiles lo segs hi ->
  nth_error segs i = Some a -> nth_error segs (S i) = Some b ->
  fst b = snd a + 1.
Proof.
  revert lo i. induction segs as [|[s e] segs IH]; intros lo i H Ha Hb.
  - destruct i; discriminate.
  - destruct H as [Hs [Hle Hr]]. destruct i as [|i].
    + simpl in Ha. injection Ha as <-.
      destruct segs as [|[s' e'] segs]; [discriminate|].
      simpl in Hb. injection Hb as <-. simpl in *. lia.
    + exact (IH _ _ Hr Ha Hb).
Qed.

Lemma tiles_nonempty_ranges (segs : list seg) (lo hi : Z) :
  tiles lo segs hi -> Forall (fun sg => fst sg <= snd sg) segs.
Proof.
  revert lo. induction segs as [|[s e] segs IH]; intros lo H; [constructor|].
  destruct H as [Hs [Hle Hr]]. constructor; [exact Hle|exact (IH _ Hr)].
Qed.

Lemma tiles_last (segs : list seg) (lo hi : Z) :
  segs <> [] -> tiles lo segs hi ->
  exists pre s, segs = pre ++ [(s, hi - 1)].
Proof.
  revert lo. induction segs as [|[s e] segs IH]; intros lo Hne H; [congruence|].
  destruct H as [Hs [Hle Hr]]. destruct segs as [|sg segs].
  - simpl in Hr. exists [], s. simpl. repeat f_equal. lia.
  - destruct (IH _ ltac:(discriminate) Hr) as [pre [s' E]].
    exists ((s, e) :: pre), s'. simpl. rewrite E. reflexivity.
Qed.

Lemma tiles_range_invariant (segs : list seg) (n : Z) :
  segs <> [] -> tiles 0 segs n -> range_invariant n segs.
Proof.
  intros Hne H. unfold range_invariant. repeat split.
  - destruct segs as [|[s e] rest]; [congruence|].
    destruct H as [-> _]. exists e, rest. reflexivity.
  - exact (tiles_last _ _ _ Hne H).
  - intros i a b. exact (tiles_adjacent _ _ _ _ _ _ H).
  - exact (tiles_nonempty_ranges _ _ _ H).
Qed.

(** The materializing loop: the ranges built so far tile [0 .. start - 1]. *)
Lemma materialize_fold_tiles (boundaries : list Z) (hi : Z) :
  forall (segs : list seg) (start : Z),
    tiles 0 segs start ->
    ascending_from start boundaries ->
    Forall (fun b => b <= hi) boundaries ->
    start <= hi + 1 ->
    let '(segs', start') := fold_left materialize_body boundaries (segs, start) in
    tiles 0 segs' start' /\ start' <= hi + 1.
Proof.
  induction boundaries as [|b bs IH]; intros segs start Ht Ha Hb Hs.
  - simpl. auto.
  - simpl. destruct Ha as [Hlo Ha]. inversion Hb as [|? ? Hbhi Hb']; subst.
    apply IH; auto; [|lia].
    apply tiles_app with (mid := start); [exact Ht|].
    simpl. auto.
Qed.

Lemma materialize_tiles (sentences : list str) (boundaries : list Z) :
  1 <= len sentences ->
  ascending_from 0 boundaries ->
  Forall (fun b => b <= len sentences - 2) boundaries ->
  tiles 0 (materialize sentences boundaries) (len sentences) /\
  materialize sentences boundaries <> [].
Proof.
  intros Hn Ha Hb. unfold materialize.
  pose proof (materialize_fold_tiles boundaries (len sentences - 2) [] 0
                eq_refl Ha Hb ltac:(lia)) as H.
  destruct (fold_left materialize_body boundaries ([], 0)) as [segs start].
  destruct H as [Ht Hs]. split.
  - apply tiles_app with (mid := start); [exact Ht|].
    simpl. repeat split; lia.
  - destruct segs; discriminate.
Qed.

Lemma loop_step_tiles (sentences : list str) (min_words : Z)
  (i : nat) (segs : list seg) (a : action) (i' : nat) (segs' : list seg)
  (n : Z) :
  loop_step sentences min_words i segs = Step a i' segs' ->
  tiles 0 segs n /\ segs <> [] -> tiles 0 segs' n /\ segs' <> [].
Proof.
  intros Hs [Ht Hne]. apply loop_step_cases in Hs.
  destruct Hs as [[_ [_ [-> _]]]
                 | [_ [l1 [s1 [e1 [s2 [e2 [l2 [-> [-> _]]]]]]]]]].
  - auto.
  - split; [exact (tiles_merge _ _ _ _ _ _ _ _ Ht)|].
    destruct l1; discriminate.
Qed.

Lemma state_after_tiles (sentences : list str) (min_words : Z) (n : Z)
  (k : nat) :
  forall (i : nat) (segs : list seg),
    tiles 0 segs n /\ segs <> [] ->
    tiles 0 (snd (state_after k sentences min_words i segs)) n /\
    snd (state_after k sentences min_words i segs) <> [].
Proof.
  induction k as [|k IH]; intros i segs H; [exact H|].
  simpl.
  destruct (loop_step sentences min_words i segs) as [a i' segs'| |e] eqn:Es;
    try exact H.
  apply IH. exact (loop_step_tiles _ _ _ _ _ _ _ _ Es H).
Qed.

(** C5: for [n >= 1] units and candidate boundaries that increase
    strictly within [0 .. n - 2], the range list of the Enforcer, right
    after it is materialized ([k = 0]) and after each further iteration of
    the merge loop, starts at 0, ends at [n - 1], has every range begin
    one past the end of the one before it, and has no empty range: no unit
    is dropped or duplicated. *)
Theorem enforce_ranges_partition_units :
  forall (sentences : list str) (boundaries : list Z) (min_words : Z)
         (k : nat),
    1 <= len sentences ->
    ascending_from 0 boundaries ->
    Forall (fun b => b <= len sentences - 2) boundaries ->
    range_invariant (len sentences)
      (snd (state_after k sentences min_words 0
              (materialize sentences boundaries))).
Proof.
  intros sentences boundaries min_words k Hn Ha Hb.
  destruct (state_after_tiles sentences min_words (len sentences) k 0
              (materialize sentences boundaries)
              (materialize_tiles sentences boundaries Hn Ha Hb)) as [Ht Hne].
  exact (tiles_range_invariant _ _ Hne Ht).
Qed.

Lemma enforce_ranges_partition_units_witness :
  range_invariant 5 [(0, 1); (2, 3); (4, 4)].
Proof.
  apply (enforce_ranges_partition_units five_units [0; 1; 3] 5 1).
  - vm_compute. discriminate.
  - simpl. lia.
  - repeat constructor; vm_compute; discriminate.
Defined.

(* ----------------------------------------------------------------- *)
(** ** Configuration values below their useful range *)

Lemma word_count_nonneg (s : str) : 0 <= word_count s.
Proof. unfold word_count, len. lia. Qed.

Lemma sum_word_counts_nonneg (sentences : list str) (idxs : list Z) (wc : Z) :
  sum_word_counts sentences idxs = Ok wc -> 0 <= wc.
Proof.
  revert wc. induction idxs as [|i idxs IH]; intros wc; simpl.
  - intros H. injection H as <-. lia.
  - destruct (index sentences i) as [s|]; simpl; [|discriminate].
    destruct (sum_word_counts sentences idxs) as [r|]; simpl; [|discriminate].
    intros H. injection H as <-.
    pose proof (word_count_nonneg s). specialize (IH r eq_refl). lia.
Qed.

Lemma ltb_max_0 (wc m : Z) : 0 <= wc -> (wc <? m) = (wc <? Z.max m 0).
Proof.
  intros H. destruct (Z.max_spec m 0) as [[Hm ->] | [_ ->]]; [|reflexivity].
  destruct (wc <? m) eqn:E1; destruct (wc <? 0) eqn:E2; try reflexivity.
  - apply Z.ltb_lt in E1. lia.
  - apply Z.ltb_lt in E2. lia.
Qed.

Lemma fold_left_ext {A B} (f g : A -> B -> A) (l : list B) (a : A) :
  (forall x y, f x y = g x y) -> fold_left f l a = fold_left g l a.
Proof.
  intros H. revert a. induction l as [|y l IH]; intros a; simpl; [reflexivity|].
  rewrite H. apply IH.
Qed.

Lemma merge_short_sentences_max (sentences : list str) (m : Z) :
  merge_short_sentences sentences m
  = merge_short_sentences sentences (Z.max m 0).
Proof.
  unfold merge_short_sentences.
  rewrite (fold_left_ext (merge_body m) (merge_body (Z.max m 0))); [reflexivity|].
  intros [merged buffer] s. unfold merge_body.
  rewrite (ltb_max_0 _ m (word_count_nonneg s)). reflexivity.
Qed.

(** With a threshold of zero or less no sentence is short: the Coalescer
    returns its input. *)
Lemma merge_short_sentences_nonpositive (sentences : list str) (m : Z) :
  m <= 0 -> merge_short_sentences sentences m = sentences.
Proof.
  intros Hm. unfold merge_short_sentences.
  assert (H : forall l merged,
             fold_left (merge_body m) l (merged, []) = (merged ++ l, [])).
  { induction l as [|s l IH]; intros merged; simpl.
    - rewrite app_nil_r. reflexivity.
    - replace (word_count s <? m) with false.
      + rewrite IH, <- app_assoc. reflexivity.
      + symmetry. apply Z.ltb_ge. pose proof (word_count_nonneg s). lia. }
  rewrite H. reflexivity.
Qed.

Lemma smooth_max (a : array) (w : Z) : smooth a w = smooth a (Z.max w 1).
Proof.
  destruct (Z.max_spec w 1) as [[H ->] | [_ ->]]; [|reflexivity].
  rewrite !smooth_noop; [reflexivity|lia|lia].
Qed.

Lemma loop_step_max (sentences : list str) (ms : Z) (i : nat)
  (segs : list seg) :
  loop_step sentences ms i segs = loop_step sentences (Z.max ms 0) i segs.
Proof.
  unfold loop_step.
  destruct (nth_error segs i) as [[s_cur e_cur]|]; [|reflexivity].
  destruct (seg_word_count sentences (s_cur, e_cur)) as [wc|] eqn:Ew;
    [|reflexivity].
  rewrite (ltb_max_0 wc ms); [reflexivity|].
  exact (sum_word_counts_nonneg _ _ _ Ew).
Qed.

Lemma loop_max (sentences : list str) (ms : Z) (fuel : nat) :
  forall (i : nat) (segs : list seg),
    loop fuel sentences ms i segs = loop fuel sentences (Z.max ms 0) i segs.
Proof.
  induction fuel as [|fuel IH]; intros i segs; [reflexivity|].
  simpl. rewrite <- loop_step_max.
  destruct (loop_step sentences ms i segs); auto.
Qed.

Lemma enforce_min_segment_length_max (sentences : list str)
  (boundaries : list Z) (ms : Z) :
  enforce_min_segment_length sentences boundaries ms
  = enforce_min_segment_length sentences boundaries (Z.max ms 0).
Proof. unfold enforce_min_segment_length. apply loop_max. Qed.

(** C3, as the code has it: [segment_transcript] validates none of its
    parameters.  A negative [merge_min_words] or [min_segment_words] is
    processed exactly like 0, and a negative [smooth_window] exactly like
    1: the same adapter calls are made and the same result is returned. *)
Theorem segment_transcript_accepts_negative_configuration :
  forall (A : Adapter) (t : str) (merge_min_words smooth_window : Z)
         (sim_threshold : float) (min_segment_words : Z) (embed_model : str),
    segment_transcript A t merge_min_words smooth_window sim_threshold
                       min_segment_words embed_model
    = segment_transcript A t (Z.max merge_min_words 0) (Z.max smooth_window 1)
                         sim_threshold (Z.max min_segment_words 0) embed_model.
Proof.
  intros A t m w th ms em. unfold segment_transcript.
  rewrite <- merge_short_sentences_max.
  destruct (len (split_into_sentences t) =? 0); [reflexivity|].
  destruct (len (merge_short_sentences (split_into_sentences t) m) <=? 4);
    [reflexivity|].
  destruct (SentenceTransformer A em) as [embedder|]; [|reflexivity].
  destruct (batch_encode A embedder _ 64) as [ev r].
  f_equal. destruct r as [embeddings|]; [|reflexivity]. simpl.
  rewrite <- smooth_max.
  destruct (smooth (cosine_similarities embeddings) w) as [smoothed|];
    [|reflexivity].
  simpl. rewrite <- enforce_min_segment_length_max. reflexivity.
Qed.

(** C3 as stated fails: with all three parameters negative the call is
    not rejected; the adapter is called and two segments are returned. *)
Lemma segment_transcript_negative_not_rejected :
  -1 < 0 /\
  segment_transcript stub (lit "a. b. c. d. e.") (-1) (-1) threshold_028 (-1)
                     default_model
  = ([LoadModel default_model;
      Encode [lit "a."; lit "b."; lit "c."; lit "d."; lit "e."]],
     Ok [lit "a. b. c. d."; lit "e."]).
Proof. split; [lia|]. vm_compute. reflexivity. Qed.

(* ----------------------------------------------------------------- *)
(** ** Units and segments are non-empty and trimmed *)

Lemma lstrip_head (s : str) (c : char) (s' : str) :
  lstrip s = c :: s' -> isspace c = false.
Proof.
  induction s as [|x s IH]; simpl; [discriminate|].
  destruct (isspace x) eqn:E; [exact IH|].
  intros H. injection H as <- _. exact E.
Qed.

Lemma lstrip_fixed (c : char) (s : str) :
  isspace c = false -> lstrip (c :: s) = c :: s.
Proof. intros H. simpl. rewrite H. reflexivity. Qed.

Lemma lstrip_app_nonspace (x : str) (c : char) (y : str) :
  isspace c = false -> lstrip (x ++ c :: y) = lstrip x ++ c :: y.
Proof.
  intros H. induction x as [|a x IH]; simpl.
  - rewrite H. reflexivity.
  - destruct (isspace a); [exact IH|reflexivity].
Qed.

Lemma rstrip_cons_nonspace (c : char) (s : str) :
  isspace c = false -> rstrip (c :: s) = c :: rstrip s.
Proof.
  intros H. unfold rstrip. simpl rev.
  rewrite (lstrip_app_nonspace (rev s) c [] H).
  rewrite rev_app_distr. reflexivity.
Qed.

Lemma rstrip_last (s : str) (d : char) :
  rstrip s <> [] -> isspace (last (rstrip s) d) = false.
Proof.
  unfold rstrip. intros Hne.
  destruct (lstrip (rev s)) as [|c s'] eqn:E; [contradiction Hne; reflexivity|].
  simpl rev. rewrite last_last. exact (lstrip_head _ _ _ E).
Qed.

Lemma strip_wf (s : str) : strip s <> [] -> wf_unit (strip s).
Proof.
  unfold strip. intros Hne.
  destruct (lstrip s) as [|c s'] eqn:E; [contradiction Hne; reflexivity|].
  pose proof (lstrip_head _ _ _ E) as Hc.
  exists c, (rstrip s'). split; [apply rstrip_cons_nonspace; exact Hc|].
  split; [exact Hc|]. apply rstrip_last. exact Hne.
Qed.

Lemma wf_unit_strip (s : str) : wf_unit s -> strip s = s.
Proof.
  intros [c [s' [-> [Hc Hl]]]]. unfold strip.
  rewrite (lstrip_fixed c s' Hc). unfold rstrip.
  destruct (rev (c :: s')) as [|x r] eqn:E.
  - apply (f_equal (@rev _)) in E. rewrite rev_involutive in E. discriminate.
  - assert (Hx : last (c :: s') c = x).
    { apply (f_equal (@rev _)) in E. rewrite rev_involutive in E.
      rewrite E. simpl rev. apply last_last. }
    rewrite Hx in Hl. rewrite (lstrip_fixed x r Hl).
    rewrite <- E. apply rev_involutive.
Qed.

Lemma wf_unit_nonempty (s : str) : wf_unit s -> s <> [].
Proof. intros [c [s' [-> _]]]. discriminate. Qed.

Lemma lstrip_nonempty (x : str) (c : char) (y : str) :
  isspace c = false -> lstrip (x ++ c :: y) <> [].
Proof.
  intros H. rewrite (lstrip_app_nonspace x c y H).
  destruct (lstrip x); discriminate.
Qed.

Lemma strip_nonempty (x : str) (c : char) (y : str) :
  isspace c = false -> strip (x ++ c :: y) <> [].
Proof.
  intros H. unfold strip. rewrite (lstrip_app_nonspace x c y H).
  destruct (lstrip x) as [|a l] eqn:E; simpl app.
  - rewrite (rstrip_cons_nonspace c y H). discriminate.
  - rewrite (rstrip_cons_nonspace a _ (lstrip_head _ _ _ E)). discriminate.
Qed.

Lemma truthy_true (s : str) : truthy s = true <-> s <> [].
Proof. destruct s; simpl; split; congruence. Qed.

Lemma last_app_cons {A} (x : list A) (c : A) (y : list A) (d : A) :
  last (x ++ c :: y) d = last (c :: y) d.
Proof.
  induction x as [|a x IH]; [reflexivity|].
  simpl app. destruct (x ++ c :: y) eqn:E.
  - destruct x; discriminate.
  - rewrite <- IH. reflexivity.
Qed.

Lemma last_indep {A} (l : list A) (d d' : A) :
  l <> [] -> last l d = last l d'.
Proof.
  induction l as [|a l IH]; [congruence|]. intros _.
  destruct l as [|b l]; [reflexivity|].
  change (last (b :: l) d = last (b :: l) d'). apply IH. discriminate.
Qed.

Lemma join_wf (units : list str) :
  units <> [] -> Forall wf_unit units -> wf_unit (join [space] units).
Proof.
  induction units as [|u units IH]; [congruence|].
  intros _ H. inversion H as [|? ? Hu Hrest]; subst.
  destruct units as [|v units]; [exact Hu|].
  specialize (IH ltac:(discriminate) Hrest).
  change (join [space] (u :: v :: units))
    with (u ++ [space] ++ join [space] (v :: units)).
  destruct Hu as [c [u' [-> [Hc _]]]].
  destruct IH as [d [j' [Ej [Hd Hl]]]].
  rewrite Ej in *. exists c, (u' ++ [space] ++ d :: j').
  split; [reflexivity|]. split; [exact Hc|].
  rewrite (app_assoc (c :: u') [space] (d :: j')).
  rewrite last_app_cons.
  rewrite (last_indep (d :: j') c d); [exact Hl|discriminate].
Qed.

Lemma split_into_sentences_wf (t : str) :
  Forall wf_unit (split_into_sentences t).
Proof.
  unfold split_into_sentences. apply Forall_forall. intros u Hu.
  apply in_map_iff in Hu as [s [<- Hs]].
  apply filter_In in Hs as [_ Hs].
  apply strip_wf. apply truthy_true. exact Hs.
Qed.

Lemma merge_body_wf (m : Z) (st : list str * str) (s : str) :
  wf_unit s ->
  Forall wf_unit (fst st) /\ (snd st = [] \/ wf_unit (snd st)) ->
  Forall wf_unit (fst (merge_body m st s)) /\
  (snd (merge_body m st s) = [] \/ wf_unit (snd (merge_body m st s))).
Proof.
  intros Hs [Hm Hb]. destruct st as [merged buffer]. simpl fst in *.
  simpl snd in *. unfold merge_body.
  destruct (word_count s <? m).
  - cbn [fst snd]. split; [exact Hm|]. right. apply strip_wf.
    destruct Hs as [c [s' [-> [Hc _]]]].
    change (buffer ++ space :: c :: s') with (buffer ++ [space] ++ c :: s').
    rewrite (app_assoc buffer [space] (c :: s')).
    apply strip_nonempty. exact Hc.
  - destruct buffer as [|b buffer]; simpl truthy; cbv iota; simpl fst; simpl snd.
    + split; [|left; reflexivity].
      apply Forall_app. split; [exact Hm|]. constructor; [exact Hs|constructor].
    + split; [|left; reflexivity].
      destruct Hb as [Hb|Hb]; [discriminate|].
      rewrite (wf_unit_strip _ Hb).
      repeat (apply Forall_app; split); auto.
Qed.

Lemma merge_fold_wf (m : Z) (l : list str) :
  forall st,
    Forall wf_unit l ->
    Forall wf_unit (fst st) /\ (snd st = [] \/ wf_unit (snd st)) ->
    Forall wf_unit (fst (fold_left (merge_body m) l st)) /\
    (snd (fold_left (merge_body m) l st) = [] \/
     wf_unit (snd (fold_left (merge_body m) l st))).
Proof.
  induction l as [|s l IH]; intros st Hl Hst; [exact Hst|].
  inversion Hl as [|? ? Hs Hl']; subst. simpl. apply IH; [exact Hl'|].
  apply merge_body_wf; assumption.
Qed.

Lemma merge_short_sentences_wf (sentences : list str) (m : Z) :
  Forall wf_unit sentences -> Forall wf_unit (merge_short_sentences sentences m).
Proof.
  intros H. unfold merge_short_sentences.
  pose proof (merge_fold_wf m sentences ([], []) H
                (conj (Forall_nil _) (or_introl eq_refl))) as [Hm Hb].
  destruct (fold_left (merge_body m) sentences ([], [])) as [merged buffer].
  simpl fst in *. simpl snd in *.
  destruct buffer as [|b buffer]; simpl truthy; cbv iota; [exact Hm|].
  destruct Hb as [Hb|Hb]; [discriminate|].
  rewrite (wf_unit_strip _ Hb).
  apply Forall_app. split; [exact Hm|]. constructor; [exact Hb|constructor].
Qed.

Lemma merge_body_progress (m : Z) (st : list str * str) (s : str) :
  wf_unit s ->
  fst (merge_body m st s) <> [] \/ snd (merge_body m st s) <> [].
Proof.
  intros [c [s' [-> [Hc _]]]]. destruct st as [merged buffer].
  unfold merge_body. destruct (word_count (c :: s') <? m); cbn [fst snd].
  - right.
    rewrite (app_assoc buffer [space] (c :: s')).
    apply strip_nonempty. exact Hc.
  - left. destruct (truthy buffer); cbn [fst];
      intros E; apply app_eq_nil in E as [_ E]; discriminate.
Qed.

Lemma merge_fold_progress (m : Z) (l : list str) :
  forall st,
    l <> [] -> Forall wf_unit l ->
    fst (fold_left (merge_body m) l st) <> [] \/
    snd (fold_left (merge_body m) l st) <> [].
Proof.
  induction l as [|s l IH]; intros st Hne Hl; [congruence|].
  inversion Hl as [|? ? Hs Hl']; subst. simpl.
  destruct l as [|s' l]; [|apply IH; [discriminate|exact Hl']].
  simpl. apply merge_body_progress. exact Hs.
Qed.

Lemma merge_short_sentences_nonempty (sentences : list str) (m : Z) :
  sentences <> [] -> Forall wf_unit sentences ->
  merge_short_sentences sentences m <> [].
Proof.
  intros Hne Hl. unfold merge_short_sentences.
  pose proof (merge_fold_progress m sentences ([], []) Hne Hl) as H.
  destruct (fold_left (merge_body m) sentences ([], [])) as [merged buffer].
  cbn [fst snd] in H. destruct buffer as [|b buffer]; simpl truthy; cbv iota.
  - destruct H as [H|H]; [exact H|congruence].
  - intros E. apply app_eq_nil in E as [_ E]. discriminate.
Qed.

Lemma in_firstn {A} (n : nat) (l : list A) (x : A) :
  In x (firstn n l) -> In x l.
Proof.
  intros H. rewrite <- (firstn_skipn n l). apply in_or_app. left. exact H.
Qed.

Lemma in_skipn {A} (n : nat) (l : list A) (x : A) :
  In x (skipn n l) -> In x l.
Proof.
  intros H. rewrite <- (firstn_skipn n l). apply in_or_app. right. exact H.
Qed.

(* ----------------------------------------------------------------- *)
(** ** Batching and the shapes along the pipeline *)

Lemma firstn_plus {A} (a b : nat) (l : list A) :
  firstn (a + b) l = firstn a l ++ firstn b (skipn a l).
Proof.
  revert l. induction a as [|a IH]; intros l; [reflexivity|].
  destruct l as [|x l]; simpl.
  - rewrite firstn_nil. reflexivity.
  - rewrite IH. reflexivity.
Qed.

Lemma slice_chunk {A} (l : list A) (k : nat) (c : Z) :
  0 < c -> Z.of_nat k * c <= len l ->
  slice l (0 + Z.of_nat k * c) (0 + Z.of_nat k * c + c)
  = firstn (Z.to_nat c) (skipn (k * Z.to_nat c) l).
Proof.
  intros Hc Hk. unfold slice, slice_bound. fold (len l).
  replace (0 + Z.of_nat k * c <? 0) with false by (symmetry; apply Z.ltb_ge; lia).
  replace (0 + Z.of_nat k * c + c <? 0) with false
    by (symmetry; apply Z.ltb_ge; lia).
  rewrite (Z.max_l (0 + Z.of_nat k * c)) by lia.
  rewrite (Z.max_l (0 + Z.of_nat k * c + c)) by lia.
  rewrite (Z.min_l (0 + Z.of_nat k * c)) by lia.
  replace (Z.to_nat (0 + Z.of_nat k * c)) with (k * Z.to_nat c)%nat by lia.
  destruct (Z.min_spec (0 + Z.of_nat k * c + c) (len l)) as [[H ->] | [H ->]].
  - f_equal. lia.
  - rewrite (firstn_all2 (n := Z.to_nat c)).
    + apply firstn_all2. rewrite length_skipn. unfold len in *. lia.
    + rewrite length_skipn. unfold len in *. lia.
Qed.

Lemma concat_chunks {A} (l : list A) (c : nat) (q : nat) :
  concat (map (fun k => firstn c (skipn (k * c) l)) (seq 0 q))
  = firstn (q * c) l.
Proof.
  induction q as [|q IH]; [reflexivity|].
  rewrite seq_S, map_app, concat_app, IH. simpl.
  rewrite app_nil_r. rewrite <- firstn_plus. f_equal. lia.
Qed.

Lemma batches_cover {A} (l : list A) (c : Z) :
  0 < c ->
  concat (map (fun i => slice l i (i + c)) (range_step 0 (len l) c)) = l.
Proof.
  intros Hc. unfold range_step. rewrite map_map.
  set (q := Z.to_nat ((len l - 0 + c - 1) / c)).
  assert (Hq : Z.of_nat q = (len l + c - 1) / c).
  { subst q. rewrite Z2Nat.id; [f_equal; lia|].
    apply Z.div_pos; unfold len; lia. }
  assert (Hdm := Z.div_mod (len l + c - 1) c ltac:(lia)).
  assert (Hmb := Z.mod_pos_bound (len l + c - 1) c Hc).
  rewrite (map_ext_in _ (fun k => firstn (Z.to_nat c) (skipn (k * Z.to_nat c) l))).
  - rewrite concat_chunks. apply firstn_all2. unfold len in *. nia.
  - intros k Hk. apply in_seq in Hk. apply slice_chunk; [exact Hc|].
    unfold len in *. nia.
Qed.

Lemma encode_batches_rows (A : Adapter) (embedder : model A)
  (batches : list (list str)) :
  one_row_per_unit A ->
  forall ev embs,
    encode_batches A embedder batches = (ev, Ok embs) ->
    length (concat embs) = length (concat batches).
Proof.
  intros HA. induction batches as [|b batches IH]; intros ev embs H; simpl in H.
  - injection H as <- <-. reflexivity.
  - destruct (encode A embedder b) as [emb|] eqn:Eb; [|discriminate].
    destruct (encode_batches A embedder batches) as [ev' [embs'|]];
      simpl in H; [|discriminate].
    injection H as <- <-. simpl. rewrite !length_app.
    rewrite (HA _ _ _ Eb), (IH _ _ eq_refl). reflexivity.
Qed.

Lemma vstack_rows (blocks : list matrix) (rows : matrix) :
  vstack blocks = Ok rows -> rows = concat blocks.
Proof.
  unfold vstack. destruct blocks as [|b blocks]; [discriminate|].
  destruct (concat (b :: blocks)) as [|r rs]; [congruence|].
  destruct (forallb _ _); congruence.
Qed.

Lemma batch_encode_rows (A : Adapter) (embedder : model A)
  (sentences : list str) (ev : list event) (embeddings : matrix) :
  one_row_per_unit A ->
  batch_encode A embedder sentences 64 = (ev, Ok embeddings) ->
  length embeddings = length sentences.
Proof.
  intros HA H. unfold batch_encode in H.
  destruct (encode_batches A embedder _) as [ev' [embs|]] eqn:E;
    simpl in H; [|discriminate].
  injection H as _ H. apply vstack_rows in H. subst embeddings.
  rewrite (encode_batches_rows A embedder _ HA _ _ E).
  rewrite (batches_cover sentences 64 ltac:(lia)). reflexivity.
Qed.

Lemma cosine_similarities_length (embeddings : matrix) :
  length (cosine_similarities embeddings) = (length embeddings - 1)%nat.
Proof.
  induction embeddings as [|a embeddings IH]; [reflexivity|].
  destruct embeddings as [|b embeddings]; [reflexivity|].
  change (cosine_similarities (a :: b :: embeddings))
    with (cosine a b :: cosine_similarities (b :: embeddings)).
  simpl length in *. rewrite IH. lia.
Qed.

Lemma smooth_same_length (a out : array) (w : Z) :
  a <> [] -> w <= 1 \/ Z.odd w = true ->
  smooth a w = Ok out -> length out = length a.
Proof.
  intros Ha Hw H.
  destruct (Z_le_gt_dec w 1) as [Hle|Hgt].
  - rewrite (smooth_noop a w Hle) in H. congruence.
  - destruct Hw as [Hw|Hw]; [lia|].
    apply Z.odd_spec in Hw as [k ->].
    destruct (smooth_odd_length a k Ha ltac:(lia)) as [out' [E L]].
    rewrite E in H. injection H as <-. unfold len in L. lia.
Qed.

Lemma find_boundaries_valid (smoothed : array) (t : float) :
  ascending_from 0 (find_boundaries smoothed t) /\
  Forall (fun b => b <= len smoothed - 1) (find_boundaries smoothed t).
Proof.
  rewrite find_boundaries_where_lt. split.
  - apply where_lt_from_ascending.
  - apply Forall_forall. intros b Hb.
    apply where_lt_from_bounds in Hb. lia.
Qed.

Lemma loop_tiles (sentences : list str) (min_words n : Z) (fuel : nat) :
  forall (i : nat) (segs out : list seg),
    tiles 0 segs n /\ segs <> [] ->
    loop fuel sentences min_words i segs = Ok out ->
    tiles 0 out n /\ out <> [].
Proof.
  induction fuel as [|fuel IH]; intros i segs out H Hrun; [discriminate|].
  simpl in Hrun.
  destruct (loop_step sentences min_words i segs) as [a i' segs'| |e] eqn:Es.
  - apply (IH i' segs' out); [|exact Hrun].
    exact (loop_step_tiles _ _ _ _ _ _ _ _ Es H).
  - injection Hrun as <-. exact H.
  - discriminate.
Qed.

Lemma tiles_in_bounds (segs : list seg) (lo hi s e : Z) :
  tiles lo segs hi -> In (s, e) segs -> lo <= s /\ s <= e /\ e < hi.
Proof.
  revert lo. induction segs as [|[s0 e0] segs IH]; intros lo H Hin;
    [contradiction|].
  destruct H as [Hs [Hle Hr]]. destruct Hin as [Hin|Hin].
  - injection Hin as -> ->. pose proof (tiles_bounds _ _ _ Hr). lia.
  - specialize (IH _ Hr Hin). lia.
Qed.

Lemma render_wf (sentences : list str) (s e : Z) :
  Forall wf_unit sentences -> 0 <= s -> s <= e -> e < len sentences ->
  wf_unit (render sentences (s, e)).
Proof.
  intros Hu Hs Hle He. unfold render.
  assert (Hsl : slice sentences s (e + 1)
                = firstn (Z.to_nat (e + 1 - s)) (skipn (Z.to_nat s) sentences)).
  { unfold slice, slice_bound.
    replace (s <? 0) with false by (symmetry; apply Z.ltb_ge; lia).
    replace (e + 1 <? 0) with false by (symmetry; apply Z.ltb_ge; lia).
    rewrite !Z.max_l, !Z.min_l by lia. reflexivity. }
  rewrite Hsl.
  set (part := firstn _ _).
  assert (Hpart : Forall wf_unit part).
  { apply Forall_forall. intros u Hin. subst part.
    apply in_firstn, in_skipn in Hin.
    exact (proj1 (Forall_forall _ _) Hu u Hin). } 
  assert (Hne : part <> []).
  { intros E. apply (f_equal (@length _)) in E. subst part.
    rewrite length_firstn, length_skipn in E. unfold len in He.
    simpl in E. lia. }
  pose proof (join_wf part Hne Hpart) as Hj.
  rewrite (wf_unit_strip _ Hj). exact Hj.
Qed.

(** The entry point away from even windows: when [smooth_window] is odd or
    at most one, the adapter returns one row per unit and the call
    returns, a transcript with at least one sentence gives at least one
    segment, and every segment is a non-empty string without surrounding
    whitespace. *)
Lemma segment_transcript_segments_nonempty :
  forall (A : Adapter) (t : str) (merge_min_words smooth_window : Z)
         (sim_threshold : float) (min_segment_words : Z) (embed_model : str)
         (ev : list event) (segments : list str),
    one_row_per_unit A ->
    smooth_window <= 1 \/ Z.odd smooth_window = true ->
    split_into_sentences t <> [] ->
    segment_transcript A t merge_min_words smooth_window sim_threshold
                       min_segment_words embed_model = (ev, Ok segments) ->
    segments <> [] /\
    Forall (fun s => s <> [] /\ strip s = s) segments.
Proof.
  intros A t m w th ms em ev segments HA Hw Hne H.
  assert (Hgoal : segments <> [] /\ Forall wf_unit segments).
  2:{ destruct Hgoal as [H1 H2]. split; [exact H1|].
      apply Forall_forall. intros s Hs.
      pose proof (proj1 (Forall_forall _ _) H2 s Hs) as Hwf.
      split; [exact (wf_unit_nonempty _ Hwf)|exact (wf_unit_strip _ Hwf)]. }
  unfold segment_transcript in H.
  pose proof (merge_short_sentences_wf _ m (split_into_sentences_wf t)) as Hu.
  set (units := merge_short_sentences (split_into_sentences t) m) in *.
  replace (len (split_into_sentences t) =? 0) with false in H.
  2:{ symmetry. apply Z.eqb_neq. unfold len.
      destruct (split_into_sentences t); [congruence|simpl; lia]. }
  destruct (len units <=? 4) eqn:E4.
  - injection H as _ <-. split; [discriminate|].
    constructor; [|constructor]. apply join_wf; [|exact Hu].
    subst units. apply merge_short_sentences_nonempty; [exact Hne|].
    apply split_into_sentences_wf.
  - apply Z.leb_gt in E4.
    destruct (SentenceTransformer A em) as [embedder|]; [|discriminate].
    destruct (batch_encode A embedder units 64) as [ev' r] eqn:Eb.
    injection H as _ H.
    destruct r as [embeddings|]; [|discriminate]. simpl in H.
    pose proof (batch_encode_rows A embedder units ev' embeddings HA Eb) as Hrows.
    pose proof (cosine_similarities_length embeddings) as Hsims.
    destruct (smooth (cosine_similarities embeddings) w) as [smoothed|] eqn:Esm;
      [|discriminate].
    simpl in H.
    assert (Hlen : length smoothed = length (cosine_similarities embeddings)).
    { apply (smooth_same_length _ _ w); [|exact Hw|exact Esm].
      intros E. rewrite E in Hsims. unfold len in E4. simpl in Hsims. lia. }
    destruct (find_boundaries_valid smoothed th) as [Hasc Hbnd].
    destruct (enforce_min_segment_length units (find_boundaries smoothed th) ms)
      as [seg_ranges|] eqn:Een; [|discriminate].
    simpl in H. injection H as <-.
    unfold enforce_min_segment_length in Een.
    apply (loop_tiles units ms (len units)) in Een.
    + destruct Een as [Ht Hn]. split.
      * destruct seg_ranges; [congruence|discriminate].
      * apply Forall_forall. intros s Hs.
        apply in_map_iff in Hs as [[a b] [<- Hin]].
        destruct (tiles_in_bounds _ _ _ _ _ Ht Hin) as [H1 [H2 H3]].
        apply render_wf; assumption.
    + apply materialize_tiles; [lia|exact Hasc|].
      eapply Forall_impl; [|exact Hbnd]. intros b Hb. cbv beta in *.
      unfold len in *. lia.
Qed.

(* ----------------------------------------------------------------- *)
(** ** The entry point with an even smoothing window *)

(** C10 at an even width: five one-word units, [smooth_window = 2] and
    [min_segment_words = 0].  The smoothed series has five entries for
    four similarities, its last entry is below the threshold, the
    boundary 4 is proposed after the last unit, and the segment list ends
    with an empty string. *)
Theorem segment_transcript_even_window_empty_segment :
  split_into_sentences (lit "a. b. c. d. e.")
  = [lit "a."; lit "b."; lit "c."; lit "d."; lit "e."] /\
  segment_transcript stub (lit "a. b. c. d. e.") 1 2 threshold_028 0
                     default_model
  = ([LoadModel default_model;
      Encode [lit "a."; lit "b."; lit "c."; lit "d."; lit "e."]],
     Ok [lit "a. b. c. d. e."; []]).
Proof. split; vm_compute; reflexivity. Qed.

(* ================================================================= *)
(** * Further properties of the module *)

(* ----------------------------------------------------------------- *)
(** ** Words *)

Lemma split_all_space (w : str) (cur : str) :
  forallb isspace w = true -> split_from cur w = split_from cur [].
Proof.
  revert cur. induction w as [|c w IH]; intros cur H; [reflexivity|].
  simpl in H. apply andb_true_iff in H as [Hc Hw]. simpl. rewrite Hc.
  destruct cur; rewrite (IH [] Hw); reflexivity.
Qed.

Lemma split_from_space (cur x : str) (c : char) (y : str) :
  isspace c = true ->
  split_from cur (x ++ c :: y) = split_from cur x ++ split y.
Proof.
  intros Hc. revert cur. induction x as [|a x IH]; intros cur.
  - simpl. rewrite Hc. destruct cur; reflexivity.
  - simpl. destruct (isspace a).
    + destruct cur; rewrite IH; reflexivity.
    + apply IH.
Qed.

Lemma split_from_trailing (cur x w : str) :
  forallb isspace w = true -> split_from cur (x ++ w) = split_from cur x.
Proof.
  intros Hw. destruct w as [|c w]; [rewrite app_nil_r; reflexivity|].
  simpl in Hw. apply andb_true_iff in Hw as [Hc Hw].
  rewrite (split_from_space cur x c w Hc). unfold split.
  rewrite (split_all_space w [] Hw). simpl. apply app_nil_r.
Qed.

Lemma lstrip_decomp (s : str) :
  exists w, forallb isspace w = true /\ s = w ++ lstrip s.
Proof.
  induction s as [|c s [w [Hw E]]]; [exists []; auto|].
  simpl. destruct (isspace c) eqn:Hc.
  - exists (c :: w). simpl. rewrite Hc, Hw. split; [reflexivity|].
    f_equal. exact E.
  - exists []. auto.
Qed.

Lemma forallb_rev {A} (f : A -> bool) (l : list A) :
  forallb f l = true -> forallb f (rev l) = true.
Proof.
  intros H. apply forallb_forall. intros x Hx. apply in_rev in Hx.
  exact (proj1 (forallb_forall f l) H x Hx).
Qed.

Lemma rstrip_decomp (s : str) :
  exists w, forallb isspace w = true /\ s = rstrip s ++ w.
Proof.
  unfold rstrip. destruct (lstrip_decomp (rev s)) as [w [Hw E]].
  exists (rev w). split; [apply forallb_rev; exact Hw|].
  rewrite <- rev_app_distr, <- E, rev_involutive. reflexivity.
Qed.

Lemma split_lstrip (s : str) : split (lstrip s) = split s.
Proof.
  induction s as [|c s IH]; [reflexivity|].
  simpl. destruct (isspace c) eqn:Hc; [|reflexivity].
  rewrite IH. unfold split. simpl. rewrite Hc. reflexivity.
Qed.

Lemma split_rstrip (s : str) : split (rstrip s) = split s.
Proof.
  destruct (rstrip_decomp s) as [w [Hw E]].
  rewrite E at 2. unfold split. rewrite split_from_trailing by exact Hw.
  reflexivity.
Qed.

Lemma split_strip (s : str) : split (strip s) = split s.
Proof. unfold strip. rewrite split_rstrip. apply split_lstrip. Qed.

Lemma words_of_app (l1 l2 : list str) :
  words_of (l1 ++ l2) = words_of l1 ++ words_of l2.
Proof. unfold words_of. rewrite map_app. apply concat_app. Qed.

Lemma split_join (l : list str) : split (join [space] l) = words_of l.
Proof.
  induction l as [|u l IH]; [reflexivity|].
  destruct l as [|v l].
  - unfold words_of. simpl. symmetry. apply app_nil_r.
  - change (join [space] (u :: v :: l))
      with (u ++ space :: join [space] (v :: l)).
    unfold split at 1. rewrite split_from_space by reflexivity.
    rewrite IH. reflexivity.
Qed.

(* ----------------------------------------------------------------- *)
(** ** Tokenizer: words and sentence ends *)

Lemma re_split_from_words (s : str) :
  forall (sk pt : bool) (cur : str),
    (sk = true -> cur = []) ->
    words_of (re_split_from sk pt cur s) = split (rev cur ++ s).
Proof.
  induction s as [|c s IH]; intros sk pt cur Hsk.
  - unfold words_of. simpl. rewrite !app_nil_r. reflexivity.
  - assert (Hpush : words_of (re_split_from false (is_terminal c) (c :: cur) s)
                    = split (rev cur ++ c :: s)).
    { rewrite IH by discriminate. simpl rev. rewrite <- app_assoc. reflexivity. }
    simpl. destruct (isspace c) eqn:Hc; [|exact Hpush].
    destruct sk.
    + rewrite (Hsk eq_refl). rewrite IH by reflexivity. simpl.
      unfold split. simpl. rewrite Hc. reflexivity.
    + destruct pt; [|exact Hpush].
      unfold words_of. simpl. fold (words_of (re_split_from true false [] s)).
      rewrite IH by reflexivity. simpl.
      unfold split at 3. rewrite split_from_space by exact Hc. reflexivity.
Qed.

Lemma words_of_strip_filter (pieces : list str) :
  words_of (map strip (filter (fun s => truthy (strip s)) pieces))
  = words_of pieces.
Proof.
  induction pieces as [|p pieces IH]; [reflexivity|].
  simpl. unfold words_of in *. destruct (strip p) as [|c r] eqn:E; simpl.
  - rewrite IH. rewrite <- (split_strip p), E. reflexivity.
  - rewrite IH, <- (split_strip p), E. reflexivity.
Qed.

Lemma split_into_sentences_keeps_words_aux (t : str) :
  words_of (split_into_sentences t) = split t.
Proof.
  unfold split_into_sentences.
  rewrite words_of_strip_filter. unfold re_split_sentence_end.
  rewrite re_split_from_words by discriminate. simpl. apply split_strip.
Qed.

(** X1: the Tokenizer keeps every word of the transcript, in order. *)
Theorem split_into_sentences_keeps_words :
  forall t : str, words_of (split_into_sentences t) = split t.
Proof. exact split_into_sentences_keeps_words_aux. Qed.

Lemma is_terminal_not_space (c : char) :
  is_terminal c = true -> isspace c = false.
Proof.
  unfold is_terminal. intros H.
  apply orb_true_iff in H as [H|H]; [apply orb_true_iff in H as [H|H]|];
    apply N.eqb_eq in H; subst; reflexivity.
Qed.

Lemma re_split_from_nonempty (s : str) :
  forall (sk pt : bool) (cur : str), re_split_from sk pt cur s <> [].
Proof.
  induction s as [|c s IH]; intros sk pt cur; simpl; [discriminate|].
  destruct (isspace c); [|apply IH].
  destruct sk; [apply IH|]. destruct pt; [discriminate|apply IH].
Qed.

Lemma re_split_from_ends (s : str) :
  forall (sk pt : bool) (cur : str),
    (pt = true -> exists c cur', cur = c :: cur' /\ is_terminal c = true) ->
    Forall ends_with_terminal (removelast (re_split_from sk pt cur s)).
Proof.
  induction s as [|c s IH]; intros sk pt cur Hpt; [constructor|].
  assert (Hpush : Forall ends_with_terminal
            (removelast (re_split_from false (is_terminal c) (c :: cur) s))).
  { apply IH. intros H. exists c, cur. auto. }
  simpl. destruct (isspace c) eqn:Hc; [|exact Hpush].
  destruct sk; [apply IH; discriminate|].
  destruct pt; [|exact Hpush].
  destruct (Hpt eq_refl) as [d [cur' [-> Hd]]].
  assert (Hrest := IH true false [] ltac:(discriminate)).
  destruct (re_split_from true false [] s) as [|p ps] eqn:E.
  - exact (False_ind _ (re_split_from_nonempty s true false [] E)).
  - change (removelast (rev (d :: cur') :: p :: ps))
      with (rev (d :: cur') :: removelast (p :: ps)).
    constructor; [|exact Hrest]. exists (rev cur'), d. auto.
Qed.

Lemma removelast_filter_Forall {A} (P : A -> Prop) (f : A -> bool)
  (l : list A) :
  Forall P (removelast l) -> Forall P (removelast (filter f l)).
Proof.
  induction l as [|x l IH]; intros H; [constructor|].
  destruct l as [|y l].
  - simpl. destruct (f x); constructor.
  - change (removelast (x :: y :: l)) with (x :: removelast (y :: l)) in H.
    inversion H as [|? ? Hx Hr]; subst. specialize (IH Hr).
    change (filter f (x :: y :: l))
      with (if f x then x :: filter f (y :: l) else filter f (y :: l)).
    destruct (f x); [|exact IH].
    destruct (filter f (y :: l)) as [|z zs]; [constructor|].
    change (removelast (x :: z :: zs)) with (x :: removelast (z :: zs)).
    constructor; assumption.
Qed.

Lemma removelast_map {A B} (f : A -> B) (l : list A) :
  removelast (map f l) = map f (removelast l).
Proof.
  induction l as [|x l IH]; [reflexivity|].
  destruct l as [|y l]; [reflexivity|].
  change (removelast (map f (x :: y :: l)))
    with (f x :: removelast (map f (y :: l))).
  rewrite IH. reflexivity.
Qed.

Lemma rstrip_snoc_nonspace (x : str) (c : char) :
  isspace c = false -> rstrip (x ++ [c]) = x ++ [c].
Proof.
  intros Hc. unfold rstrip. rewrite rev_unit.
  rewrite (lstrip_fixed c (rev x) Hc). simpl. rewrite rev_involutive.
  reflexivity.
Qed.

Lemma strip_ends_with_terminal (s : str) :
  ends_with_terminal s -> ends_with_terminal (strip s).
Proof.
  intros [q [c [-> Hc]]]. pose proof (is_terminal_not_space c Hc) as Hs.
  unfold strip. rewrite (lstrip_app_nonspace q c [] Hs).
  rewrite (rstrip_snoc_nonspace _ c Hs). exists (lstrip q), c. auto.
Qed.

(** X2: every sentence but the last one ends with [.], [!] or [?]. *)
Theorem split_into_sentences_terminal_ends :
  forall t : str,
    Forall ends_with_terminal (removelast (split_into_sentences t)).
Proof.
  intros t. unfold split_into_sentences. rewrite removelast_map.
  apply Forall_map.
  eapply Forall_impl; [intros s; apply strip_ends_with_terminal|].
  apply removelast_filter_Forall. apply re_split_from_ends. discriminate.
Qed.

(** X3: every sentence is non-empty and carries no surrounding whitespace. *)
Theorem split_into_sentences_trimmed :
  forall t : str,
    Forall (fun s => s <> [] /\ strip s = s) (split_into_sentences t).
Proof.
  intros t. eapply Forall_impl; [|apply split_into_sentences_wf].
  intros s H. split; [exact (wf_unit_nonempty s H)|exact (wf_unit_strip s H)].
Qed.

(* ----------------------------------------------------------------- *)
(** ** Coalescer: words, count *)

Lemma merge_body_words (m : Z) (st : list str * str) (s : str) :
  words_of (fst (merge_body m st s)) ++ split (snd (merge_body m st s))
  = (words_of (fst st) ++ split (snd st)) ++ split s.
Proof.
  destruct st as [merged buffer]. unfold merge_body.
  destruct (word_count s <? m); cbn [fst snd].
  - rewrite split_strip. unfold split at 1.
    change (buffer ++ [space] ++ s) with (buffer ++ space :: s).
    rewrite split_from_space by reflexivity. rewrite app_assoc. reflexivity.
  - destruct buffer as [|b buffer]; simpl truthy; cbv iota; cbn [fst snd].
    + rewrite words_of_app. unfold words_of at 2. simpl.
      rewrite !app_nil_r. reflexivity.
    + rewrite !words_of_app. unfold words_of at 2 3. simpl.
      rewrite !app_nil_r. rewrite split_strip. reflexivity.
Qed.

Lemma merge_fold_words (m : Z) (l : list str) :
  forall st,
    words_of (fst (fold_left (merge_body m) l st))
      ++ split (snd (fold_left (merge_body m) l st))
    = (words_of (fst st) ++ split (snd st)) ++ words_of l.
Proof.
  induction l as [|s l IH]; intros st; simpl.
  - unfold words_of at 3. simpl. rewrite app_nil_r. reflexivity.
  - rewrite IH, merge_body_words. rewrite <- app_assoc. reflexivity.
Qed.

Lemma merge_short_sentences_keeps_words_aux (sentences : list str) (m : Z) :
  words_of (merge_short_sentences sentences m) = words_of sentences.
Proof.
  unfold merge_short_sentences.
  pose proof (merge_fold_words m sentences ([], [])) as H.
  destruct (fold_left (merge_body m) sentences ([], [])) as [merged buffer].
  cbn [fst snd] in H. simpl in H.
  destruct buffer as [|b buffer]; simpl truthy; cbv iota.
  - rewrite <- H. unfold split. simpl. symmetry. apply app_nil_r.
  - rewrite words_of_app. unfold words_of at 2. simpl. rewrite app_nil_r.
    rewrite split_strip. exact H.
Qed.

(** X4: the Coalescer keeps every word of its input, in order. *)
Theorem merge_short_sentences_keeps_words :
  forall (sentences : list str) (min_words : Z),
    words_of (merge_short_sentences sentences min_words) = words_of sentences.
Proof. exact merge_short_sentences_keeps_words_aux. Qed.

Lemma merge_fold_count (m : Z) (l : list str) :
  forall st,
    (length (fst (fold_left (merge_body m) l st))
       + (if truthy (snd (fold_left (merge_body m) l st)) then 1 else 0)
     <= length (fst st) + (if truthy (snd st) then 1 else 0) + length l)%nat.
Proof.
  induction l as [|s l IH]; intros st; simpl; [lia|].
  etransitivity; [apply IH|].
  destruct st as [merged buffer]. unfold merge_body.
  destruct (word_count s <? m); cbn [fst snd].
  - destruct (truthy (strip _)), (truthy buffer); lia.
  - destruct (truthy buffer) eqn:E; cbn [fst snd]; rewrite ?E;
      rewrite !length_app; simpl; lia.
Qed.

(** X5: the Coalescer never returns more units than it received sentences. *)
Theorem merge_short_sentences_count :
  forall (sentences : list str) (min_words : Z),
    (length (merge_short_sentences sentences min_words)
     <= length sentences)%nat.
Proof.
  intros sentences m. unfold merge_short_sentences.
  pose proof (merge_fold_count m sentences ([], [])) as H.
  destruct (fold_left (merge_body m) sentences ([], [])) as [merged buffer].
  cbn [fst snd] in H. simpl in H.
  destruct (truthy buffer); [rewrite length_app; simpl; lia|lia].
Qed.

(** X6: units made from non-empty trimmed sentences are non-empty and
    trimmed, and there is at least one unit when there is a sentence. *)
Theorem merge_short_sentences_units_trimmed :
  forall (sentences : list str) (min_words : Z),
    Forall (fun s => s <> [] /\ strip s = s) sentences ->
    Forall (fun u => u <> [] /\ strip u = u)
           (merge_short_sentences sentences min_words) /\
    (sentences <> [] -> merge_short_sentences sentences min_words <> []).
Proof.
  intros sentences m H.
  assert (Hwf : Forall wf_unit sentences).
  { eapply Forall_impl; [|exact H]. intros s [Hne Hs].
    rewrite <- Hs. apply strip_wf. rewrite Hs. exact Hne. }
  split.
  - eapply Forall_impl; [|apply merge_short_sentences_wf; exact Hwf].
    intros s Hs. split; [exact (wf_unit_nonempty s Hs)|exact (wf_unit_strip s Hs)].
  - intros Hne. apply merge_short_sentences_nonempty; assumption.
Qed.

Lemma merge_short_sentences_units_trimmed_witness :
  Forall (fun u => u <> [] /\ strip u = u)
         (merge_short_sentences filler_then_long 6) /\
  (filler_then_long <> [] -> merge_short_sentences filler_then_long 6 <> []).
Proof.
  apply (merge_short_sentences_units_trimmed filler_then_long 6).
  repeat constructor; vm_compute; discriminate.
Defined.

(** X7: a threshold of zero or less coalesces nothing. *)
Theorem merge_short_sentences_threshold_nonpositive :
  forall (sentences : list str) (min_words : Z),
    min_words <= 0 -> merge_short_sentences sentences min_words = sentences.
Proof. exact merge_short_sentences_nonpositive. Qed.

Lemma merge_short_sentences_threshold_nonpositive_witness :
  merge_short_sentences filler_then_long 0 = filler_then_long.
Proof.
  apply (merge_short_sentences_threshold_nonpositive filler_then_long 0). lia.
Defined.

(* ----------------------------------------------------------------- *)
(** ** Similarity Profiler *)

(** X8: [n] embeddings give [n - 1] similarities, none for fewer than two. *)
Theorem cosine_similarities_one_shorter :
  forall embeddings : matrix,
    len (cosine_similarities embeddings) = Z.max (len embeddings - 1) 0.
Proof.
  intros embeddings. unfold len.
  rewrite cosine_similarities_length. lia.
Qed.





(* ----------------------------------------------------------------- *)
(** ** Smoother *)

(** X10: for a non-empty series and a window above one the Smoother returns
    [len + 1 - window mod 2] values: the length of the input for an odd
    window, one more for an even window. *)
Theorem smooth_output_length :
  forall (a : array) (window : Z),
    a <> [] -> 1 < window ->
    exists out, smooth a window = Ok out /\
                len out = len a + 1 - window mod 2.
Proof.
  intros a window Ha Hw.
  destruct (smooth_length a window Ha Hw) as [out [E L]].
  exists out. split; [exact E|].
  pose proof (Z.div_mod window 2 ltac:(lia)). lia.
Qed.

Lemma smooth_output_length_witness :
  exists out, smooth [one; zero; one] 5 = Ok out /\
              len out = len [one; zero; one] + 1 - 5 mod 2.
Proof.
  apply (smooth_output_length [one; zero; one] 5); [discriminate|lia].
Defined.

(** X11: an empty series and a window above one make NumPy raise
    [ValueError]; the Smoother does not return an empty series. *)
Theorem smooth_empty_series_raises :
  forall window : Z, 1 < window -> smooth [] window = Err ValueError.
Proof. exact smooth_empty_raises. Qed.

Lemma smooth_empty_series_raises_witness : smooth [] 3 = Err ValueError.
Proof. apply (smooth_empty_series_raises 3). lia. Defined.

(* ----------------------------------------------------------------- *)
(** ** Boundary Extractor *)

Lemma where_lt_from_spec (a : array) (t : float) :
  forall (j i : Z),
    In i (where_lt_from j a t) <->
    exists (k : nat) (x : float),
      i = j + Z.of_nat k /\ nth_error a k = Some x /\ flt x t = true.
Proof.
  induction a as [|y a IH]; intros j i; simpl.
  - split; [tauto|]. intros [k [x [_ [H _]]]]. destruct k; discriminate.
  - assert (Hrec : In i (where_lt_from (j + 1) a t) <->
                   exists (k : nat) (x : float),
                     i = j + Z.of_nat (S k) /\ nth_error a k = Some x /\
                     flt x t = true).
    { rewrite IH. split; intros [k [x [H1 H2]]]; exists k, x; (split; [lia|exact H2]). }
    split.
    + intros H.
      assert (Hcases : (i = j /\ flt y t = true) \/
                       In i (where_lt_from (j + 1) a t)).
      { destruct (flt y t); [destruct H as [H|H]; auto|auto]. }
      destruct Hcases as [[-> Hy] | Hin].
      * exists 0%nat, y. repeat split; [lia|exact Hy].
      * apply Hrec in Hin as [k [x [H1 H2]]]. exists (S k), x. auto.
    + intros [k [x [Hi [Hx Hf]]]]. destruct k as [|k].
      * simpl in Hx. injection Hx as ->. rewrite Hf. left. lia.
      * assert (Hin : In i (where_lt_from (j + 1) a t))
          by (apply Hrec; exists k, x; auto).
        destruct (flt y t); [right|]; exact Hin.
Qed.

(** X12: an index is a candidate boundary exactly when the smoothed value
    at that index is below the threshold; the duplicate filter of the
    loop drops nothing. *)
Theorem find_boundaries_exact :
  forall (smoothed : array) (threshold : float) (i : Z),
    In i (find_boundaries smoothed threshold) <->
    0 <= i /\ exists x, nth_error smoothed (Z.to_nat i) = Some x /\
                         flt x threshold = true.
Proof.
  intros smoothed threshold i. rewrite find_boundaries_where_lt.
  unfold where_lt. rewrite where_lt_from_spec. split.
  - intros [k [x [-> H]]]. split; [lia|]. exists x.
    replace (Z.to_nat (0 + Z.of_nat k)) with k by lia. exact H.
  - intros [Hi [x H]]. exists (Z.to_nat i), x. split; [lia|exact H].
Qed.

(** X13: the candidate boundaries increase strictly and lie in
    [0 .. len(smoothed) - 1]. *)
Theorem find_boundaries_ascending_in_range :
  forall (smoothed : array) (threshold : float),
    ascending_from 0 (find_boundaries smoothed threshold) /\
    Forall (fun b => 0 <= b <= len smoothed - 1)
           (find_boundaries smoothed threshold).
Proof.
  intros smoothed threshold. rewrite find_boundaries_where_lt. split.
  - apply where_lt_from_ascending.
  - apply Forall_forall. intros b Hb.
    apply where_lt_from_bounds in Hb. lia.
Qed.

(* ----------------------------------------------------------------- *)
(** ** Segment Length Enforcer: materialized ranges and word counts *)

Lemma materialize_fold_ranges (boundaries : list Z) (last_index : Z) :
  forall (segs : list seg) (start : Z),
    (let '(segs', start') :=
       fold_left materialize_body boundaries (segs, start) in
     segs' ++ [(start', last_index)])
    = segs ++ ranges_from start boundaries last_index.
Proof.
  induction boundaries as [|b bs IH]; intros segs start; [reflexivity|].
  simpl. rewrite IH, <- app_assoc. reflexivity.
Qed.

Lemma materialize_ranges_from (sentences : list str) (boundaries : list Z) :
  materialize sentences boundaries
  = ranges_from 0 boundaries (len sentences - 1).
Proof.
  unfold materialize.
  pose proof (materialize_fold_ranges boundaries (len sentences - 1) [] 0) as H.
  destruct (fold_left materialize_body boundaries ([], 0)) as [segs start].
  exact H.
Qed.

Lemma ranges_from_length (start : Z) (boundaries : list Z) (last_index : Z) :
  length (ranges_from start boundaries last_index) = S (length boundaries).
Proof.
  revert start. induction boundaries as [|b bs IH]; intros start; simpl;
    [reflexivity|]. rewrite IH. reflexivity.
Qed.

Lemma ranges_from_starts (start : Z) (boundaries : list Z) (last_index s e : Z) :
  In (s, e) (ranges_from start boundaries last_index) ->
  (s = start \/ In (s - 1) boundaries) /\
  (e = last_index \/ In e boundaries).
Proof.
  revert start. induction boundaries as [|b bs IH]; intros start; simpl.
  - intros [H|[]]. injection H as <- <-. auto.
  - intros [H|H].
    + injection H as <- <-. auto.
    + destruct (IH _ H) as [[->|H1] H2].
      * split; [right; left; lia|tauto].
      * split; tauto.
Qed.

Lemma total_words_nonneg (units : list str) : 0 <= total_words units.
Proof.
  induction units as [|u units IH]; simpl; [lia|].
  pose proof (word_count_nonneg u). lia.
Qed.

Lemma total_words_app (l1 l2 : list str) :
  total_words (l1 ++ l2) = total_words l1 + total_words l2.
Proof. induction l1 as [|u l1 IH]; simpl; [reflexivity|]. rewrite IH. lia. Qed.

Lemma total_words_part (units : list str) (k n : nat) :
  total_words (firstn k (skipn n units)) <= total_words units.
Proof.
  rewrite <- (firstn_skipn n units) at 2.
  rewrite <- (firstn_skipn k (skipn n units)) at 2.
  rewrite !total_words_app.
  pose proof (total_words_nonneg (firstn n units)).
  pose proof (total_words_nonneg (skipn k (skipn n units))). lia.
Qed.

Lemma skipn_nth_error {A} (l : list A) (n : nat) (x : A) :
  nth_error l n = Some x -> skipn n l = x :: skipn (S n) l.
Proof.
  revert l. induction n as [|n IH]; intros l H; destruct l as [|y l];
    try discriminate.
  - simpl in H. injection H as ->. reflexivity.
  - simpl in H. simpl. apply (IH _ H).
Qed.

Lemma index_in_range {A} (l : list A) (i : Z) :
  0 <= i < len l ->
  exists x, index l i = Ok x /\ nth_error l (Z.to_nat i) = Some x.
Proof.
  intros [Hlo Hhi]. unfold index.
  replace (i <? 0) with false by (symmetry; apply Z.ltb_ge; lia).
  replace ((0 <=? i) && (i <? len l)) with true.
  - destruct (nth_error l (Z.to_nat i)) as [x|] eqn:E; [exists x; auto|].
    apply nth_error_None in E. unfold len in Hhi. lia.
  - symmetry. apply andb_true_iff. split; [apply Z.leb_le|apply Z.ltb_lt]; lia.
Qed.

Lemma sum_word_counts_range (units : list str) (k : nat) :
  forall s : Z,
    0 <= s -> s + Z.of_nat k <= len units ->
    sum_word_counts units (map (fun j => s + Z.of_nat j) (seq 0 k))
    = Ok (total_words (firstn k (skipn (Z.to_nat s) units))).
Proof.
  induction k as [|k IH]; intros s Hs Hk; [reflexivity|].
  change (seq 0 (S k)) with (0%nat :: seq 1 k).
  change (map (fun j => s + Z.of_nat j) (0%nat :: seq 1 k))
    with ((s + 0) :: map (fun j => s + Z.of_nat j) (seq 1 k)).
  rewrite Z.add_0_r. simpl sum_word_counts.
  destruct (index_in_range units s ltac:(lia)) as [u [Eu En]].
  rewrite Eu. simpl rbind.
  rewrite <- seq_shift, map_map.
  rewrite (map_ext _ (fun j => (s + 1) + Z.of_nat j)) by (intros; lia).
  rewrite IH by lia. simpl rbind.
  rewrite (skipn_nth_error _ _ _ En). simpl firstn. simpl total_words.
  replace (Z.to_nat (s + 1)) with (S (Z.to_nat s)) by lia. reflexivity.
Qed.

Lemma seg_word_count_in_range (units : list str) (s e : Z) :
  0 <= s -> s <= e + 1 -> e < len units ->
  seg_word_count units (s, e)
  = Ok (total_words (firstn (Z.to_nat (e + 1 - s))
                            (skipn (Z.to_nat s) units))).
Proof.
  intros Hs Hse He. unfold seg_word_count, range.
  apply sum_word_counts_range; lia.
Qed.

(* ----------------------------------------------------------------- *)
(** ** Segment Length Enforcer: results *)

Lemma loop_step_no_raise (sentences : list str) (min_words : Z)
  (i : nat) (segs : list seg) (e : exn) :
  tiles 0 segs (len sentences) ->
  loop_step sentences min_words i segs <> Raise e.
Proof.
  intros Ht. unfold loop_step.
  destruct (nth_error segs i) as [[s_cur e_cur]|] eqn:Ei; [|discriminate].
  destruct (tiles_in_bounds _ _ _ _ _ Ht (nth_error_In _ _ Ei)) as [H1 [H2 H3]].
  rewrite seg_word_count_in_range by lia.
  destruct (_ <? min_words); [|discriminate].
  destruct i as [|p].
  - destruct (nth_error segs 1) as [[? ?]|]; discriminate.
  - destruct (nth_error segs p) as [[? ?]|] eqn:Ep; [discriminate|].
    apply nth_error_None in Ep.
    assert (S p < length segs)%nat by (apply nth_error_Some; congruence). lia.
Qed.

Lemma loop_no_raise (sentences : list str) (min_words : Z) (fuel : nat) :
  forall (i : nat) (segs : list seg) (e : exn),
    tiles 0 segs (len sentences) /\ segs <> [] ->
    loop fuel sentences min_words i segs = Err e -> e = FuelExhausted.
Proof.
  induction fuel as [|fuel IH]; intros i segs e Ht H; simpl in H.
  - congruence.
  - destruct (loop_step sentences min_words i segs) as [a i' segs'| |e'] eqn:Es.
    + apply (IH i' segs' e); [|exact H].
      exact (loop_step_tiles _ _ _ _ _ _ _ _ Es Ht).
    + discriminate.
    + exfalso. exact (loop_step_no_raise _ _ _ _ _ (proj1 Ht) Es).
Qed.

Lemma enforce_valid_returns (sentences : list str) (boundaries : list Z)
  (min_words : Z) :
  1 <= len sentences ->
  ascending_from 0 boundaries ->
  Forall (fun b => b <= len sentences - 2) boundaries ->
  exists out,
    enforce_min_segment_length sentences boundaries min_words = Ok out /\
    tiles 0 out (len sentences) /\ out <> [].
Proof.
  intros Hn Ha Hb.
  pose proof (materialize_tiles sentences boundaries Hn Ha Hb) as Ht.
  unfold enforce_min_segment_length.
  set (segs0 := materialize sentences boundaries) in *.
  destruct (loop_terminates sentences min_words (2 * length segs0) 0 segs0)
    as [k [r [Hk [Hr Hrun]]]]; [lia|lia|].
  rewrite (Hrun (2 * length segs0 + 1)%nat) by lia.
  specialize (Hrun (2 * length segs0 + 1)%nat ltac:(lia)).
  destruct r as [out|e].
  - exists out. split; [reflexivity|].
    exact (loop_tiles _ _ _ _ _ _ _ Ht Hrun).
  - exfalso. apply Hr. f_equal. exact (loop_no_raise _ _ _ _ _ _ Ht Hrun).
Qed.

(** X14: for at least one unit and candidate boundaries that increase
    strictly within [0 .. n - 2], the Enforcer raises nothing and returns
    ranges that partition [0 .. n - 1]. *)
Theorem enforce_min_segment_length_returns_partition :
  forall (sentences : list str) (boundaries : list Z) (min_words : Z),
    1 <= len sentences ->
    ascending_from 0 boundaries ->
    Forall (fun b => b <= len sentences - 2) boundaries ->
    exists out,
      enforce_min_segment_length sentences boundaries min_words = Ok out /\
      range_invariant (len sentences) out.
Proof.
  intros sentences boundaries min_words Hn Ha Hb.
  destruct (enforce_valid_returns sentences boundaries min_words Hn Ha Hb)
    as [out [E [Ht Hne]]].
  exists out. split; [exact E|]. exact (tiles_range_invariant _ _ Hne Ht).
Qed.

Lemma enforce_min_segment_length_returns_partition_witness :
  exists out,
    enforce_min_segment_length five_units [0; 1; 3] 5 = Ok out /\
    range_invariant (len five_units) out.
Proof.
  apply (enforce_min_segment_length_returns_partition five_units [0; 1; 3] 5).
  - vm_compute. discriminate.
  - simpl. lia.
  - repeat constructor; vm_compute; discriminate.
Defined.

Lemma loop_step_breaks (sentences : list str) (min_words : Z)
  (i : nat) (segs : list seg) (a : action) (i' : nat) (segs' : list seg) :
  loop_step sentences min_words i segs = Step a i' segs' ->
  incl (map fst segs') (map fst segs) /\ incl (map snd segs') (map snd segs).
Proof.
  intros H. apply loop_step_cases in H.
  destruct H as [[_ [_ [-> _]]]
                | [_ [l1 [s1 [e1 [s2 [e2 [l2 [-> [-> _]]]]]]]]]].
  - split; apply incl_refl.
  - rewrite !map_app. simpl. split; intros x Hx;
      apply in_app_or in Hx as [Hx|Hx]; apply in_or_app; auto;
      right; destruct Hx as [Hx|Hx]; simpl; auto.
Qed.

Lemma loop_breaks (sentences : list str) (min_words : Z) (fuel : nat) :
  forall (i : nat) (segs out : list seg),
    loop fuel sentences min_words i segs = Ok out ->
    incl (map fst out) (map fst segs) /\ incl (map snd out) (map snd segs).
Proof.
  induction fuel as [|fuel IH]; intros i segs out H; [discriminate|].
  simpl in H.
  destruct (loop_step sentences min_words i segs) as [a i' segs'| |e] eqn:Es.
  - destruct (IH _ _ _ H) as [H1 H2].
    destruct (loop_step_breaks _ _ _ _ _ _ _ Es) as [H3 H4].
    split; eapply incl_tran; eassumption.
  - injection H as <-. split; apply incl_refl.
  - discriminate.
Qed.

(** X15: merging only removes candidate boundaries.  Every returned range
    starts at unit 0 or right after a candidate boundary, and ends at a
    candidate boundary or at the last unit. *)
Theorem enforce_min_segment_length_keeps_breaks :
  forall (sentences : list str) (boundaries : list Z) (min_words : Z)
         (out : list seg) (s e : Z),
    enforce_min_segment_length sentences boundaries min_words = Ok out ->
    In (s, e) out ->
    (s = 0 \/ In (s - 1) boundaries) /\
    (e = len sentences - 1 \/ In e boundaries).
Proof.
  intros sentences boundaries min_words out s e H Hin.
  unfold enforce_min_segment_length in H.
  destruct (loop_breaks _ _ _ _ _ _ H) as [H1 H2].
  rewrite materialize_ranges_from in H1, H2.
  assert (Hs : In s (map fst (ranges_from 0 boundaries (len sentences - 1))))
    by (apply H1; apply (in_map fst _ _ Hin)).
  assert (He : In e (map snd (ranges_from 0 boundaries (len sentences - 1))))
    by (apply H2; apply (in_map snd _ _ Hin)).
  apply in_map_iff in Hs as [[s' e'] [Es Hs]].
  apply in_map_iff in He as [[s'' e''] [Ee He]].
  simpl in Es, Ee. subst.
  split; [exact (proj1 (ranges_from_starts _ _ _ _ _ Hs))
         |exact (proj2 (ranges_from_starts _ _ _ _ _ He))].
Qed.

Lemma enforce_min_segment_length_keeps_breaks_witness :
  (2 = 0 \/ In (2 - 1) [0; 1; 3]) /\ (4 = len five_units - 1 \/ In 4 [0; 1; 3]).
Proof.
  apply (enforce_min_segment_length_keeps_breaks five_units [0; 1; 3] 5
           [(0, 1); (2, 4)] 2 4).
  - reflexivity.
  - right. left. reflexivity.
Defined.

Lemma loop_all_meet (sentences : list str) (min_words : Z)
  (segs : list seg) :
  Forall (meets_minimum sentences min_words) segs ->
  forall (fuel i : nat),
    (length segs - i < fuel)%nat ->
    loop fuel sentences min_words i segs = Ok segs.
Proof.
  intros Hall. induction fuel as [|fuel IH]; intros i Hf; [lia|].
  simpl. unfold loop_step.
  destruct (nth_error segs i) as [[s_cur e_cur]|] eqn:Ei; [|reflexivity].
  pose proof (proj1 (Forall_forall _ _) Hall _ (nth_error_In _ _ Ei))
    as [wc [Ew Hw]].
  assert (i < length segs)%nat by (apply nth_error_Some; congruence).
  rewrite Ew. replace (wc <? min_words) with false
    by (symmetry; apply Z.ltb_ge; exact Hw).
  apply IH. lia.
Qed.

(** X16: when every materialized range already has [min_words] words, the
    Enforcer merges nothing and returns the materialized ranges. *)
Theorem enforce_min_segment_length_no_merge :
  forall (sentences : list str) (boundaries : list Z) (min_words : Z),
    Forall (fun sg => exists wc, seg_word_count sentences sg = Ok wc /\
                                 min_words <= wc)
           (materialize sentences boundaries) ->
    enforce_min_segment_length sentences boundaries min_words
    = Ok (materialize sentences boundaries).
Proof.
  intros sentences boundaries min_words H.
  unfold enforce_min_segment_length. apply loop_all_meet; [exact H|lia].
Qed.

Lemma enforce_min_segment_length_no_merge_witness :
  enforce_min_segment_length five_units [1; 3] 3
  = Ok (materialize five_units [1; 3]).
Proof.
  apply (enforce_min_segment_length_no_merge five_units [1; 3] 3).
  repeat constructor; eexists; (split; [reflexivity|vm_compute; discriminate]).
Defined.

(** X17: with [min_words <= 0] and candidate boundaries that increase
    strictly within [0 .. n - 2], every candidate boundary is kept: the
    result is the list of materialized ranges. *)
Theorem enforce_min_segment_length_threshold_nonpositive :
  forall (sentences : list str) (boundaries : list Z) (min_words : Z),
    min_words <= 0 ->
    1 <= len sentences ->
    ascending_from 0 boundaries ->
    Forall (fun b => b <= len sentences - 2) boundaries ->
    enforce_min_segment_length sentences boundaries min_words
    = Ok (materialize sentences boundaries).
Proof.
  intros sentences boundaries min_words Hm Hn Ha Hb.
  unfold enforce_min_segment_length. apply loop_all_meet; [|lia].
  destruct (materialize_tiles sentences boundaries Hn Ha Hb) as [Ht _].
  apply Forall_forall. intros [s e] Hin.
  destruct (tiles_in_bounds _ _ _ _ _ Ht Hin) as [H1 [H2 H3]].
  eexists. split; [apply seg_word_count_in_range; lia|].
  pose proof (total_words_nonneg
                (firstn (Z.to_nat (e + 1 - s)) (skipn (Z.to_nat s) sentences))).
  lia.
Qed.

Lemma enforce_min_segment_length_threshold_nonpositive_witness :
  enforce_min_segment_length five_units [0; 1; 3] 0
  = Ok (materialize five_units [0; 1; 3]).
Proof.
  apply (enforce_min_segment_length_threshold_nonpositive five_units [0; 1; 3] 0).
  - lia.
  - vm_compute. discriminate.
  - simpl. lia.
  - repeat constructor; vm_compute; discriminate.
Defined.

(** X18: when all the units together have fewer than [min_words] words, the
    Enforcer collapses every candidate split and returns the single range
    [(0, n - 1)]. *)
Theorem enforce_min_segment_length_collapses :
  forall (sentences : list str) (boundaries : list Z) (min_words : Z),
    1 <= len sentences ->
    ascending_from 0 boundaries ->
    Forall (fun b => b <= len sentences - 2) boundaries ->
    total_words sentences < min_words ->
    enforce_min_segment_length sentences boundaries min_words
    = Ok [(0, len sentences - 1)].
Proof.
  intros sentences boundaries min_words Hn Ha Hb Htot.
  destruct (enforce_valid_returns sentences boundaries min_words Hn Ha Hb)
    as [out [E [Ht Hne]]].
  rewrite E. f_equal.
  assert (Hlen : length out = 1%nat).
  { unfold enforce_min_segment_length in E.
    apply (loop_minimum sentences min_words _ 0%nat _ out) in E.
    - destruct E as [E|E]; [exact E|].
      destruct out as [|[s e] out]; [congruence|].
      inversion E as [|? ? [wc [Ew Hw]] _]; subst.
      destruct (tiles_in_bounds _ _ _ s e Ht (or_introl eq_refl)) as [H1 [H2 H3]].
      rewrite seg_word_count_in_range in Ew by lia. injection Ew as <-.
      pose proof (total_words_part sentences (Z.to_nat (e + 1 - s))
                    (Z.to_nat s)). lia.
    - left. intros j sg Hj. lia. }
  destruct out as [|[s e] [|x out]]; try discriminate.
  simpl in Ht. destruct Ht as [-> [_ He]]. f_equal. f_equal. lia.
Qed.

Lemma enforce_min_segment_length_collapses_witness :
  enforce_min_segment_length five_units [0; 1; 3] 16
  = Ok [(0, len five_units - 1)].
Proof.
  apply (enforce_min_segment_length_collapses five_units [0; 1; 3] 16).
  - vm_compute. discriminate.
  - simpl. lia.
  - repeat constructor; vm_compute; discriminate.
  - reflexivity.
Defined.

Lemma loop_count (sentences : list str) (min_words : Z) (fuel : nat) :
  forall (i : nat) (segs out : list seg),
    (1 <= length segs)%nat ->
    loop fuel sentences min_words i segs = Ok out ->
    (1 <= length out <= length segs)%nat.
Proof.
  induction fuel as [|fuel IH]; intros i segs out Hs H; [discriminate|].
  simpl in H.
  destruct (loop_step sentences min_words i segs) as [a i' segs'| |e] eqn:Es.
  - destruct (loop_step_count _ _ _ _ _ _ _ Es) as [Hadv Hmerge].
    destruct a.
    + destruct (Hmerge ltac:(discriminate)) as [H1 H2].
      specialize (IH _ _ _ H2 H). lia.
    + destruct (Hmerge ltac:(discriminate)) as [H1 H2].
      specialize (IH _ _ _ H2 H). lia.
    + rewrite (Hadv eq_refl) in H. exact (IH _ _ _ Hs H).
  - injection H as <-. lia.
  - discriminate.
Qed.

(** X19: whatever the boundaries are, the Enforcer returns at least one
    range and at most one more than there are candidate boundaries. *)
Theorem enforce_min_segment_length_count :
  forall (sentences : list str) (boundaries : list Z) (min_words : Z)
         (out : list seg),
    enforce_min_segment_length sentences boundaries min_words = Ok out ->
    (1 <= length out <= length boundaries + 1)%nat.
Proof.
  intros sentences boundaries min_words out H.
  unfold enforce_min_segment_length in H.
  apply loop_count in H.
  - rewrite materialize_ranges_from, ranges_from_length in H. lia.
  - rewrite materialize_ranges_from, ranges_from_length. lia.
Qed.

Lemma enforce_min_segment_length_count_witness :
  (1 <= length [(0, 1); (2, 4)]%Z <= length [0; 1; 3]%Z + 1)%nat.
Proof.
  apply (enforce_min_segment_length_count five_units [0; 1; 3] 5).
  reflexivity.
Defined.

(* ----------------------------------------------------------------- *)
(** ** Batched encoding *)

Lemma encode_batches_log (A : Adapter) (embedder : model A)
  (batches : list (list str)) :
  forall ev embs,
    encode_batches A embedder batches = (ev, Ok embs) ->
    ev = map Encode batches.
Proof.
  induction batches as [|b batches IH]; intros ev embs H; simpl in H.
  - injection H as <- _. reflexivity.
  - destruct (encode A embedder b) as [emb|]; [|discriminate].
    destruct (encode_batches A embedder batches) as [ev' [embs'|]];
      simpl in H; [|discriminate].
    injection H as <- _. simpl. f_equal. exact (IH _ _ eq_refl).
Qed.

Lemma slice_length_le {A} (l : list A) (i c : Z) :
  0 <= i -> 0 <= c -> (length (slice l i (i + c)) <= Z.to_nat c)%nat.
Proof.
  intros Hi Hc. unfold slice, slice_bound. rewrite length_firstn.
  replace (i <? 0) with false by (symmetry; apply Z.ltb_ge; lia).
  replace (i + c <? 0) with false by (symmetry; apply Z.ltb_ge; lia).
  lia.
Qed.

(** X20: [batch_encode] hands every sentence to the embedder exactly once
    and in order, in batches of at most [batch_size] sentences; with an
    embedder that returns one row per sentence the stacked result has one
    row per sentence. *)
Theorem batch_encode_covers_sentences :
  forall (A : Adapter) (embedder : model A) (sentences : list str)
         (batch_size : Z) (ev : list event) (embeddings : matrix),
    0 < batch_size ->
    batch_encode A embedder sentences batch_size = (ev, Ok embeddings) ->
    (exists batches,
        ev = map Encode batches /\ concat batches = sentences /\
        Forall (fun b => len b <= batch_size) batches) /\
    (one_row_per_unit A -> length embeddings = length sentences).
Proof.
  intros A embedder sentences c ev embeddings Hc H. unfold batch_encode in H.
  set (batches := map (fun i => slice sentences i (i + c))
                      (range_step 0 (len sentences) c)) in *.
  destruct (encode_batches A embedder batches) as [ev' [embs|]] eqn:E;
    simpl in H; [|discriminate].
  injection H as <- H. split.
  - exists batches. split; [exact (encode_batches_log _ _ _ _ _ E)|].
    split; [exact (batches_cover sentences c Hc)|].
    apply Forall_forall. intros b Hb. subst batches.
    apply in_map_iff in Hb as [i [<- Hi]]. unfold range_step in Hi.
    apply in_map_iff in Hi as [k [<- _]].
    pose proof (slice_length_le sentences (0 + Z.of_nat k * c) c
                  ltac:(nia) ltac:(lia)). unfold len. lia.
  - intros HA. apply vstack_rows in H. subst embeddings.
    rewrite (encode_batches_rows A embedder _ HA _ _ E).
    unfold batches. rewrite (batches_cover sentences c Hc). reflexivity.
Qed.

Lemma batch_encode_covers_sentences_witness :
  (exists batches,
      map Encode [[lit "a."; lit "b."]; [lit "c."]] = map Encode batches /\
      concat batches = [lit "a."; lit "b."; lit "c."] /\
      Forall (fun b => len b <= 2) batches) /\
  (one_row_per_unit stub ->
   length (map stub_vector [lit "a."; lit "b."; lit "c."])
   = length [lit "a."; lit "b."; lit "c."]).
Proof.
  apply (batch_encode_covers_sentences stub tt [lit "a."; lit "b."; lit "c."] 2).
  - lia.
  - reflexivity.
Defined.

(** X21: with no sentence at all [batch_encode] makes no call to the embedder
    and raises the [ValueError] of [np.vstack] on an empty list. *)
Theorem batch_encode_empty_raises :
  forall (A : Adapter) (embedder : model A) (batch_size : Z),
    0 < batch_size ->
    batch_encode A embedder [] batch_size = ([], Err ValueError).
Proof.
  intros A embedder c Hc. unfold batch_encode, range_step, len. simpl length.
  replace ((Z.of_nat 0 - 0 + c - 1) / c) with 0; [reflexivity|].
  symmetry. apply Z.div_small. lia.
Qed.

Lemma batch_encode_empty_raises_witness :
  batch_encode stub tt [] 64 = ([], Err ValueError).
Proof. apply (batch_encode_empty_raises stub tt 64). lia. Defined.

(* ----------------------------------------------------------------- *)
(** ** Entry point: coverage and adapter calls *)

Lemma slice_in_range {A} (l : list A) (s e : Z) :
  0 <= s -> s <= e -> e <= len l ->
  slice l s e = firstn (Z.to_nat (e - s)) (skipn (Z.to_nat s) l).
Proof.
  intros Hs Hse He. unfold slice, slice_bound.
  replace (s <? 0) with false by (symmetry; apply Z.ltb_ge; lia).
  replace (e <? 0) with false by (symmetry; apply Z.ltb_ge; lia).
  rewrite !Z.max_l, !Z.min_l by lia. reflexivity.
Qed.

Lemma tiles_concat_slices {A} (l : list A) (segs : list seg) :
  forall lo hi,
    tiles lo segs hi -> 0 <= lo -> hi <= len l ->
    concat (map (fun sg => slice l (fst sg) (snd sg + 1)) segs)
    = firstn (Z.to_nat (hi - lo)) (skipn (Z.to_nat lo) l).
Proof.
  induction segs as [|[s e] segs IH]; intros lo hi Ht Hlo Hhi.
  - simpl in Ht. subst. replace (Z.to_nat (hi - hi)) with 0%nat by lia.
    reflexivity.
  - destruct Ht as [-> [Hle Hr]]. pose proof (tiles_bounds _ _ _ Hr) as Hb.
    simpl. rewrite (IH _ _ Hr) by lia.
    rewrite slice_in_range by lia.
    replace (Z.to_nat (hi - lo))
      with (Z.to_nat (e + 1 - lo) + Z.to_nat (hi - (e + 1)))%nat by lia.
    rewrite firstn_plus, skipn_skipn. repeat f_equal. lia.
Qed.

Lemma words_of_render (units : list str) (segs : list seg) :
  words_of (map (render units) segs)
  = words_of (concat (map (fun sg => slice units (fst sg) (snd sg + 1)) segs)).
Proof.
  induction segs as [|[s e] segs IH]; [reflexivity|].
  simpl map. simpl concat. rewrite words_of_app, <- IH.
  unfold words_of at 1. simpl. f_equal.
  rewrite split_strip. apply split_join.
Qed.

(** The run past the short-circuit: the segments are the rendered ranges
    of a partition of the units. *)
Lemma segment_transcript_long_run (A : Adapter) (t : str)
  (m w : Z) (th : float) (ms : Z) (em : str)
  (ev : list event) (segments : list str) :
  let units := merge_short_sentences (split_into_sentences t) m in
  one_row_per_unit A ->
  w <= 1 \/ Z.odd w = true ->
  4 < len units ->
  segment_transcript A t m w th ms em = (ev, Ok segments) ->
  exists seg_ranges,
    segments = map (render units) seg_ranges /\
    tiles 0 seg_ranges (len units) /\ seg_ranges <> [].
Proof.
  intros units HA Hw H4 H. unfold segment_transcript in H. fold units in H.
  destruct (len (split_into_sentences t) =? 0) eqn:E0.
  { exfalso. apply Z.eqb_eq in E0. subst units.
    destruct (split_into_sentences t); [|unfold len in E0; simpl in E0; lia].
    rewrite merge_short_sentences_nil in H4. unfold len in H4. simpl in H4. lia. }
  replace (len units <=? 4) with false in H
    by (symmetry; apply Z.leb_gt; exact H4).
  destruct (SentenceTransformer A em) as [embedder|]; [|discriminate].
  destruct (batch_encode A embedder units 64) as [ev' r] eqn:Eb.
  injection H as _ H.
  destruct r as [embeddings|]; [|discriminate]. simpl in H.
  pose proof (batch_encode_rows A embedder units ev' embeddings HA Eb) as Hrows.
  pose proof (cosine_similarities_length embeddings) as Hsims.
  destruct (smooth (cosine_similarities embeddings) w) as [smoothed|] eqn:Esm;
    [|discriminate].
  simpl in H.
  assert (Hlen : length smoothed = length (cosine_similarities embeddings)).
  { apply (smooth_same_length _ _ w); [|exact Hw|exact Esm].
    intros E. rewrite E in Hsims. unfold len in H4. simpl in Hsims. lia. }
  destruct (find_boundaries_valid smoothed th) as [Hasc Hbnd].
  destruct (enforce_min_segment_length units (find_boundaries smoothed th) ms)
    as [seg_ranges|] eqn:Een; [|discriminate].
  simpl in H. injection H as <-.
  exists seg_ranges. split; [reflexivity|].
  unfold enforce_min_segment_length in Een.
  apply (loop_tiles units ms (len units)) in Een; [exact Een|].
  apply materialize_tiles; [lia|exact Hasc|].
  eapply Forall_impl; [|exact Hbnd]. intros b Hb. cbv beta in *.
  unfold len in *. lia.
Qed.

(** X22: when the call returns, with an odd window or a window of at most
    one and an embedder that returns one row per unit, the words of the
    returned segments, read in order, are exactly the words of the
    transcript: nothing is dropped, duplicated or reordered. *)
Theorem segment_transcript_keeps_words :
  forall (A : Adapter) (t : str) (merge_min_words smooth_window : Z)
         (sim_threshold : float) (min_segment_words : Z) (embed_model : str)
         (ev : list event) (segments : list str),
    one_row_per_unit A ->
    smooth_window <= 1 \/ Z.odd smooth_window = true ->
    segment_transcript A t merge_min_words smooth_window sim_threshold
                       min_segment_words embed_model = (ev, Ok segments) ->
    words_of segments = split t.
Proof.
  intros A t m w th ms em ev segments HA Hw H.
  pose proof (split_into_sentences_keeps_words_aux t) as Hsent.
  pose proof (merge_short_sentences_keeps_words_aux (split_into_sentences t) m)
    as Hunits.
  set (units := merge_short_sentences (split_into_sentences t) m) in *.
  destruct (Z_le_gt_dec (len units) 4) as [H4|H4].
  - unfold segment_transcript in H. fold units in H.
    destruct (len (split_into_sentences t) =? 0) eqn:E0.
    + injection H as _ <-. apply Z.eqb_eq in E0.
      destruct (split_into_sentences t); [|unfold len in E0; simpl in E0; lia].
      rewrite <- Hsent. reflexivity.
    + apply Z.leb_le in H4. rewrite H4 in H. injection H as _ <-.
      unfold words_of at 1. simpl. rewrite app_nil_r, split_join.
      rewrite Hunits. exact Hsent.
  - destruct (segment_transcript_long_run A t m w th ms em ev segments HA Hw
                ltac:(fold units; lia) H) as [seg_ranges [-> [Ht _]]].
    fold units. rewrite words_of_render.
    rewrite (tiles_concat_slices units seg_ranges 0 (len units) Ht)
      by lia.
    rewrite skipn_O, firstn_all2 by (unfold len; lia).
    rewrite Hunits. exact Hsent.
Qed.

Lemma stub_one_row_per_unit : one_row_per_unit stub.
Proof. intros embedder batch rows H. injection H as <-. apply length_map. Qed.

Lemma segment_transcript_keeps_words_witness :
  words_of [lit "a. b. c. d."; lit "e."] = split (lit "a. b. c. d. e.").
Proof.
  apply (segment_transcript_keeps_words stub (lit "a. b. c. d. e.") 1 1
           threshold_028 0 default_model
           [LoadModel default_model;
            Encode [lit "a."; lit "b."; lit "c."; lit "d."; lit "e."]]).
  - exact stub_one_row_per_unit.
  - left. lia.
  - vm_compute. reflexivity.
Defined.

(** X23: past the short-circuit, a call that returns has loaded the model
    once and then sent every unit to the embedder exactly once, in order,
    in batches of at most 64 units, and has made no other adapter call. *)
Theorem segment_transcript_adapter_calls :
  forall (A : Adapter) (t : str) (merge_min_words smooth_window : Z)
         (sim_threshold : float) (min_segment_words : Z) (embed_model : str)
         (ev : list event) (segments : list str),
    let units :=
      merge_short_sentences (split_into_sentences t) merge_min_words in
    4 < len units ->
    segment_transcript A t merge_min_words smooth_window sim_threshold
                       min_segment_words embed_model = (ev, Ok segments) ->
    exists batches,
      ev = LoadModel embed_model :: map Encode batches /\
      concat batches = units /\
      Forall (fun b => len b <= 64) batches.
Proof.
  intros A t m w th ms em ev segments units H4 H.
  unfold segment_transcript in H. fold units in H.
  destruct (len (split_into_sentences t) =? 0) eqn:E0.
  { exfalso. apply Z.eqb_eq in E0. subst units.
    destruct (split_into_sentences t); [|unfold len in E0; simpl in E0; lia].
    rewrite merge_short_sentences_nil in H4. unfold len in H4. simpl in H4. lia. }
  replace (len units <=? 4) with false in H
    by (symmetry; apply Z.leb_gt; exact H4).
  destruct (SentenceTransformer A em) as [embedder|]; [|discriminate].
  destruct (batch_encode A embedder units 64) as [ev' r] eqn:Eb.
  injection H as <- H.
  destruct r as [embeddings|]; [|discriminate].
  unfold batch_encode in Eb.
  set (batches := map (fun i => slice units i (i + 64))
                      (range_step 0 (len units) 64)) in *.
  destruct (encode_batches A embedder batches) as [ev'' [embs|]] eqn:E;
    simpl in Eb; [|discriminate].
  injection Eb as <- _.
  exists batches. split; [f_equal; exact (encode_batches_log _ _ _ _ _ E)|].
  split; [exact (batches_cover units 64 ltac:(lia))|].
  apply Forall_forall. intros b Hb. subst batches.
  apply in_map_iff in Hb as [i [<- Hi]]. unfold range_step in Hi.
  apply in_map_iff in Hi as [k [<- _]].
  pose proof (slice_length_le units (0 + Z.of_nat k * 64) 64
                ltac:(lia) ltac:(lia)). unfold len. lia.
Qed.

Lemma segment_transcript_adapter_calls_witness :
  exists batches,
    [LoadModel default_model;
     Encode [lit "a."; lit "b."; lit "c."; lit "d."; lit "e."]]
    = LoadModel default_model :: map Encode batches /\
    concat batches
    = merge_short_sentences (split_into_sentences (lit "a. b. c. d. e.")) 1 /\
    Forall (fun b => len b <= 64) batches.
Proof.
  apply (segment_transcript_adapter_calls stub (lit "a. b. c. d. e.") 1 1
           threshold_028 0 default_model _ [lit "a. b. c. d."; lit "e."]).
  - vm_compute. reflexivity.
  - vm_compute. reflexivity.
Defined.

(** X24: when the call returns, with an odd window or a window of at most
    one and an embedder that returns one row per unit, a transcript with
    at least one sentence gives at least one segment, and every segment is
    a non-empty string without surrounding whitespace. *)
Theorem segment_transcript_segments_trimmed :
  forall (A : Adapter) (t : str) (merge_min_words smooth_window : Z)
         (sim_threshold : float) (min_segment_words : Z) (embed_model : str)
         (ev : list event) (segments : list str),
    one_row_per_unit A ->
    smooth_window <= 1 \/ Z.odd smooth_window = true ->
    split_into_sentences t <> [] ->
    segment_transcript A t merge_min_words smooth_window sim_threshold
                       min_segment_words embed_model = (ev, Ok segments) ->
    segments <> [] /\
    Forall (fun s => s <> [] /\ strip s = s) segments.
Proof. exact segment_transcript_segments_nonempty. Qed.

Lemma segment_transcript_segments_trimmed_witness :
  [lit "a. b. c. d. e."] <> [] /\
  Forall (fun s => s <> [] /\ strip s = s) [lit "a. b. c. d. e."].
Proof.
  apply (segment_transcript_segments_trimmed stub (lit "a. b. c. d. e.") 1 3
           threshold_028 0 default_model
           [LoadModel default_model;
            Encode [lit "a."; lit "b."; lit "c."; lit "d."; lit "e."]]).
  - exact stub_one_row_per_unit.
  - right. reflexivity.
  - vm_compute. discriminate.
  - vm_compute. reflexivity.
Defined.
